(** * PathPal: connection registry, trip gateway session and alert pipeline

    A shallow embedding of
      - [features/websockets/connection_manager.py] (the registry),
      - [features/websockets/services.py] and the message loop of
        [features/websockets/handlers.py],
      - [features/alerts/openai_client.py], [features/alerts/email_service.py]
        and [features/alerts/services.py] (the alert pipeline),
    together with the properties the specification states about them.

    Python [str] values are modelled by [string] (characters are the code
    points below 256), a [dict] by stdpp's [gmap], and every call that leaves
    the process (socket, mail, OpenAI, database) by an explicit outcome that
    the caller of the model supplies. *)

From Stdlib Require PrimFloat.
From Stdlib Require Import Ascii Sorted.
From stdpp Require Import gmap strings list fin_maps.

Open Scope string_scope.

(* ===================================================================== *)
(** * Connection registry ([connection_manager.py])                       *)
(* ===================================================================== *)

Module Registry.

(** A [WebSocket] object is opaque to the registry: only its identity
    matters, so a handle is a number. *)
Definition WebSocket := nat.

(** [ConnectionManager.__init__]: the two dictionaries. *)
Record ConnectionManager := mkManager {
  trip_connections : gmap string (gmap string WebSocket);
  user_trip_mapping : gmap string string
}.

Definition init : ConnectionManager := mkManager ∅ ∅.

(** [connect]: [websocket.accept()] comes first and may raise, in which case
    nothing is registered ([accepted = false]).  Otherwise the member map is
    created when absent, the handle stored under [user_id] in it (the update
    in place of the inner dictionary is [alter]) and the user mapped to the
    trip. *)
Definition connect (websocket : WebSocket) (trip_id user_id : string)
    (accepted : bool) (self : ConnectionManager) : ConnectionManager :=
  if accepted then
    let tc1 := match trip_connections self !! trip_id with
               | None => <[trip_id := ∅]> (trip_connections self)
               | Some _ => trip_connections self
               end in
    mkManager (alter (insert user_id websocket) trip_id tc1)
              (<[user_id := trip_id]> (user_trip_mapping self))
  else self.

(** Python truthiness of a [str]: the empty string is falsy. *)
Definition truthy (s : string) : bool :=
  match s with EmptyString => false | _ => true end.

(** A dictionary is falsy when it has no key. *)
Definition dict_empty {V} (m : gmap string V) : bool :=
  match map_to_list m with [] => true | _ => false end.

(** [disconnect]: [user_trip_mapping.pop(user_id, None)], the early return on
    a falsy trip id ([None], and also the empty string), then the removal from
    the member map and the pruning of an emptied trip. *)
Definition disconnect (user_id : string) (self : ConnectionManager)
    : ConnectionManager :=
  match user_trip_mapping self !! user_id with
  | None => self
  | Some trip_id =>
      let utm := delete user_id (user_trip_mapping self) in
      if truthy trip_id then
        match trip_connections self !! trip_id with
        | None => mkManager (trip_connections self) utm
        | Some members =>
            let members' := delete user_id members in
            if dict_empty members'
            then mkManager (delete trip_id (trip_connections self)) utm
            else mkManager (<[trip_id := members']> (trip_connections self)) utm
        end
      else mkManager (trip_connections self) utm
  end.

(** [get_trip_participants]: the keys of the trip's member map, [[]] for an
    unknown trip. *)
Definition get_trip_participants (trip_id : string) (self : ConnectionManager)
    : list string :=
  (map_to_list (default ∅ (trip_connections self !! trip_id))).*1.

(** What the network does with one [send_text]: [true] when it returns,
    [false] when it raises.  The outcome may depend on the user key, on the
    handle and on the message. *)
Definition Network := string → WebSocket → string → bool.

(** One attempted [send_text], as seen from outside. *)
Record Send := mkSend {
  send_user : string;
  send_socket : WebSocket;
  send_message : string
}.

(** [user_id == exclude_user], where [exclude_user] defaults to [None]. *)
Definition is_excluded (user_id : string) (exclude_user : option string) : bool :=
  match exclude_user with
  | Some e => bool_decide (user_id = e)
  | None => false
  end.

(** The [for] loop of [broadcast_to_trip] over the copied member map: the
    sends attempted, and [disconnected_users], both in iteration order. *)
Fixpoint broadcast_pass (net : Network) (message : string)
    (exclude_user : option string) (connections : list (string * WebSocket))
    : list Send * list string :=
  match connections with
  | [] => ([], [])
  | (user_id, websocket) :: rest =>
      let '(sent, disconnected_users) :=
        broadcast_pass net message exclude_user rest in
      if is_excluded user_id exclude_user then (sent, disconnected_users)
      else if net user_id websocket message
      then (mkSend user_id websocket message :: sent, disconnected_users)
      else (mkSend user_id websocket message :: sent,
            user_id :: disconnected_users)
  end.

(** The second loop: [disconnect] for each collected user, in order. *)
Definition cleanup (disconnected_users : list string) (self : ConnectionManager)
    : ConnectionManager :=
  foldl (λ s user_id, disconnect user_id s) self disconnected_users.

(** [broadcast_to_trip]: nothing for an unknown trip; otherwise one pass over
    a copy of the member map, then the cleanup.  The function never raises:
    every send is wrapped in [try ... except Exception].  The copy is walked
    in the key order of [map_to_list], where Python walks it in insertion
    order; the properties below are stated up to that order. *)
Definition broadcast_to_trip (net : Network) (message trip_id : string)
    (exclude_user : option string) (self : ConnectionManager)
    : ConnectionManager * list Send :=
  match trip_connections self !! trip_id with
  | None => (self, [])
  | Some members =>
      let connections := map_to_list members in
      let '(sent, disconnected_users) :=
        broadcast_pass net message exclude_user connections in
      (cleanup disconnected_users self, sent)
  end.

(** [send_personal_message]: [false] for an unknown user; a failed send
    disconnects the user and gives [false]. *)
Definition send_personal_message (net : Network) (message user_id : string)
    (self : ConnectionManager) : ConnectionManager * list Send * bool :=
  match user_trip_mapping self !! user_id with
  | None => (self, [], false)
  | Some trip_id =>
      if truthy trip_id then
        match default ∅ (trip_connections self !! trip_id) !! user_id with
        | None => (self, [], false)
        | Some websocket =>
            if net user_id websocket message
            then (self, [mkSend user_id websocket message], true)
            else (disconnect user_id self,
                  [mkSend user_id websocket message], false)
        end
      else (self, [], false)
  end.

(** Operations on the registry, and a run of them from a given state. *)
Inductive Op :=
| Connect (websocket : WebSocket) (trip_id user_id : string) (accepted : bool)
| Disconnect (user_id : string)
| Broadcast (net : Network) (message trip_id : string)
    (exclude_user : option string).

Definition step (self : ConnectionManager) (o : Op) : ConnectionManager :=
  match o with
  | Connect ws t u a => connect ws t u a self
  | Disconnect u => disconnect u self
  | Broadcast net m t e => (broadcast_to_trip net m t e self).1
  end.

Definition run (ops : list Op) (self : ConnectionManager) : ConnectionManager :=
  foldl step self ops.

(** Along a run, every successful [connect] names a non-empty trip id and a
    user who is either unregistered or already registered under that trip. *)
Fixpoint one_trip_per_user (ops : list Op) (self : ConnectionManager) : bool :=
  match ops with
  | [] => true
  | o :: rest =>
      match o with
      | Connect _ t u true =>
          truthy t &&
          bool_decide (user_trip_mapping self !! u = None
                       ∨ user_trip_mapping self !! u = Some t)
      | _ => true
      end && one_trip_per_user rest (step self o)
  end.

(** No successful [connect] of a run registers [user_id] under [trip_id]. *)
Definition no_reconnect (trip_id user_id : string) (ops : list Op) : bool :=
  forallb (λ o, match o with
                | Connect _ t u true =>
                    negb (bool_decide (t = trip_id ∧ u = user_id))
                | _ => true
                end) ops.

(** The handle stored for [user_id] in the member map of [trip_id], if any. *)
Definition member_handle (trip_id user_id : string) (self : ConnectionManager)
    : option WebSocket :=
  trip_connections self !! trip_id ≫= lookup user_id.

(** No trip is left with an empty member map. *)
Definition pruned (self : ConnectionManager) : Prop :=
  ∀ trip_id, trip_connections self !! trip_id ≠ Some ∅.

(** [user_id] appears in the member map of [trip_id]. *)
Definition is_member (user_id trip_id : string) (self : ConnectionManager)
    : Prop :=
  is_Some (member_handle trip_id user_id self).

Definition in_exactly_one_trip (user_id : string) (self : ConnectionManager)
    : Prop :=
  ∃ t, is_member user_id t self ∧ ∀ t', is_member user_id t' self → t' = t.

(** A trip id is a key of [trip_connections] iff its member map is
    non-empty. *)
Definition trip_keys_nonempty (self : ConnectionManager) : Prop :=
  ∀ t, is_Some (trip_connections self !! t)
       ↔ ∃ m, trip_connections self !! t = Some m ∧ m ≠ ∅.

(** A user id is a key of [user_trip_mapping] iff the user appears in exactly
    one member map. *)
Definition user_keys_exact (self : ConnectionManager) : Prop :=
  ∀ u, is_Some (user_trip_mapping self !! u) ↔ in_exactly_one_trip u self.

Definition bidirectional_index (self : ConnectionManager) : Prop :=
  trip_keys_nonempty self ∧ user_keys_exact self.

(** Every user key of [user_trip_mapping] is a member of the trip it names. *)
Definition mapping_sound (self : ConnectionManager) : Prop :=
  ∀ u t, user_trip_mapping self !! u = Some t → is_member u t self.

(** Every membership is the one [user_trip_mapping] records, and no recorded
    trip id is the empty string. *)
Definition members_mapped (self : ConnectionManager) : Prop :=
  (∀ u t, is_member u t self → user_trip_mapping self !! u = Some t)
  ∧ (∀ u t, user_trip_mapping self !! u = Some t → t ≠ "").

(** The pairs of the member map that the pass sends to, and those whose
    send raises. *)
Definition attempted (net : Network) (message : string)
    (exclude_user : option string) (p : string * WebSocket) : Prop :=
  is_excluded p.1 exclude_user = false.

Definition failed (net : Network) (message : string)
    (exclude_user : option string) (p : string * WebSocket) : Prop :=
  is_excluded p.1 exclude_user = false ∧ net p.1 p.2 message = false.

#[export] Instance attempted_dec net m e p : Decision (attempted net m e p).
Proof. unfold attempted. apply _. Defined.

#[export] Instance failed_dec net m e p : Decision (failed net m e p).
Proof. unfold failed. apply _. Defined.

(** A membership that [user_trip_mapping] does not record. *)
Definition stale (A u : string) (h : WebSocket) (s : ConnectionManager) : Prop :=
  member_handle A u s = Some h ∧ user_trip_mapping s !! u ≠ Some A.

#[export] Instance Send_eq_dec : EqDecision Send.
Proof. solve_decision. Defined.

(** The stale-membership scenario: [u] joins trip [A], [v] joins trip [A],
    then [u] connects to trip [B] without disconnecting first. *)
Definition two_trips : ConnectionManager :=
  run [Connect 1 "A" "u" true; Connect 2 "A" "v" true; Connect 3 "B" "u" true]
      init.

(** Every send to user [u] raises, every other send returns. *)
Definition u_is_down : Network := λ user_id _ _, negb (bool_decide (user_id = "u")).

(** C4 as the specification words it, for one broadcast that excludes
    [exclude_user]: one send less than there are participants, and no user
    whose send raised is listed afterwards. *)
Definition broadcast_claim (net : Network) (message trip_id exclude_user : string)
    (self : ConnectionManager) : Prop :=
  let r := broadcast_to_trip net message trip_id (Some exclude_user) self in
  length r.2 = length (get_trip_participants trip_id self) - 1
  ∧ ∀ x, x ∈ r.2 → net (send_user x) (send_socket x) message = false →
         send_user x ∉ get_trip_participants trip_id r.1.

End Registry.

(* ===================================================================== *)
(** * Alert pipeline ([features/alerts])                                  *)
(* ===================================================================== *)

Module Alerts.

(** Python [float] (binary64) and [bytes]. *)
Definition float := PrimFloat.float.
Definition bytes := list Byte.byte.

(** ** [exceptions.py], and what else can be raised *)

Inductive Exception :=
| AlertProcessingError (msg : string)
| TranscriptionError (msg : string)
| AnalysisError (msg : string)
| EmailNotificationError (msg : string)
| OtherException (msg : string).

(** [str(e)]: each exception is built from one message. *)
Definition str (e : Exception) : string :=
  match e with
  | AlertProcessingError msg | TranscriptionError msg | AnalysisError msg
  | EmailNotificationError msg | OtherException msg => msg
  end.

Inductive Result (A : Type) :=
| Ok (a : A)
| Raise (e : Exception).
Arguments Ok {A} a.
Arguments Raise {A} e.

(** ** [database/models.py]: the rows the pipeline reads and writes *)

Record User := mkUser { id : string; full_name : string }.

Record EmergencyContact := mkContact { contact_email : string }.

Record Alert := mkAlert {
  user_id : string;
  latitude : float;
  longitude : float;
  transcript : string;
  ai_analysis : string;
  contacts_notified : nat;
  processing_status : string;
  error_details : option string
}.

(** ** Collaborators *)

(** Outcome of an OpenAI call made under [asyncio.wait_for]. *)
Inductive ApiResult (A : Type) :=
| Returned (a : A)
| TimedOut
| Failed (msg : string).
Arguments Returned {A} a.
Arguments TimedOut {A}.
Arguments Failed {A} msg.

(** What the outside world answers during one invocation.  [None] for a mail
    or a commit means that the call returned; [Some msg] that it raised an
    exception whose [str] is [msg].  A chat completion returns the [content]
    of each of its choices. *)
Record World := mkWorld {
  contacts_rows : Result (list EmergencyContact);
  whisper : ApiResult string;
  chat : string → ApiResult (list (option string));
  smtp_template : option string;
  smtp_plain : option string;
  db_commit : Alert → option string
}.

(** Calls that leave the process, in the order they are made. *)
Inductive Event :=
| SelectContacts (user_id : string)
| Transcription (audio_data : bytes) (filename : string)
| ChatCompletion (prompt : string)
| SendRich (recipient_emails : list string) (user_name : string)
    (location_lat location_lon : float) (ai_analysis timestamp : string)
| SendBasic (recipient_emails : list string) (user_name : string)
    (location_lat location_lon : float) (timestamp : string)
| Commit (alert : Alert).

(** The calls made so far and the committed [alerts] rows. *)
Record Store := mkStore { trace : list Event; alerts : list Alert }.

Definition empty_store : Store := mkStore [] [].

(** ** A state and exception monad for the [async] code *)

Definition M (A : Type) : Type := Store → Store * Result A.

#[export] Instance M_ret : MRet M := λ A a st, (st, Ok a).

#[export] Instance M_bind : MBind M := λ A B f m st,
  match m st with
  | (st', Ok a) => f a st'
  | (st', Raise e) => (st', Raise e)
  end.

Definition raise {A} (e : Exception) : M A := λ st, (st, Raise e).

Definition emit (ev : Event) : M unit :=
  λ st, (mkStore (trace st ++ [ev]) (alerts st), Ok tt).

Definition insert_row (alert : Alert) : M unit :=
  λ st, (mkStore (trace st) (alerts st ++ [alert]), Ok tt).

(** [try: body except Exception as e: handler(e)]. *)
Definition try_except {A} (body : M A) (handler : Exception → M A) : M A :=
  λ st, match body st with
        | (st', Ok a) => (st', Ok a)
        | (st', Raise e) => handler e st'
        end.

(** ** Python string helpers *)

(** [str.isspace] on the code points below 256. *)
Definition isspace (c : ascii) : bool :=
  let n := nat_of_ascii c in
  ((9 <=? n)%nat && (n <=? 13)%nat) || ((28 <=? n)%nat && (n <=? 32)%nat)
  || (n =? 133)%nat || (n =? 160)%nat.

Fixpoint lstrip (s : string) : string :=
  match s with
  | String c s' => if isspace c then lstrip s' else s
  | EmptyString => EmptyString
  end.

Fixpoint rstrip (s : string) : string :=
  match s with
  | String c s' =>
      match rstrip s' with
      | EmptyString => if isspace c then EmptyString else String c EmptyString
      | r => String c r
      end
  | EmptyString => EmptyString
  end.

(** [s.strip()]. *)
Definition strip (s : string) : string := rstrip (lstrip s).

(** Every character of [s] is whitespace (true of the empty string). *)
Fixpoint whitespace_only (s : string) : bool :=
  match s with
  | String c s' => isspace c && whitespace_only s'
  | EmptyString => true
  end.

Definition truthy (s : string) : bool :=
  match s with EmptyString => false | _ => true end.

Definition dq : string := String (ascii_of_nat 34) EmptyString.
Definition nl : string := String (ascii_of_nat 10) EmptyString.

(** ** [openai_client.py] *)

Definition unclear : string := "The situation is unclear from the audio.".

(** [transcribe_audio]: the Whisper call under a 30 second timeout; the
    response text stripped, or the empty string for a falsy response. *)
Definition transcribe_audio (w : World) (audio_data : bytes) (filename : string)
    : M string :=
  emit (Transcription audio_data filename);;
  match whisper w with
  | Returned response =>
      mret (if truthy response then strip response else "")
  | TimedOut => raise (TranscriptionError "Audio transcription timed out")
  | Failed e => raise (TranscriptionError ("Transcription failed: " ++ e))
  end.

Definition _create_analysis_prompt (transcript : string) : string :=
  nl ++ "You are a security expert analyzing an audio transcript from a user's emergency alert."
  ++ nl ++ "Your task is to provide a concise, one-sentence summary of the situation for an emergency contact."
  ++ nl ++ "Do not be conversational. Be direct and factual."
  ++ nl ++ "Focus on signs of distress, key words (like " ++ dq ++ "help," ++ dq
  ++ " " ++ dq ++ "stop," ++ dq ++ " " ++ dq ++ "go away" ++ dq
  ++ "), and any contextual clues (like " ++ dq ++ "he's following me," ++ dq
  ++ " " ++ dq ++ "I'm near the library" ++ dq ++ ")."
  ++ nl ++ "If the audio is unclear or benign (e.g., background noise, pocket dial), state that "
  ++ dq ++ "The situation is unclear from the audio." ++ dq
  ++ nl ++ nl ++ "Transcript: " ++ dq ++ transcript ++ dq
  ++ nl ++ nl ++ "One-sentence summary:" ++ nl.

(** [analyze_emergency_transcript]: no call for an empty or whitespace-only
    transcript; otherwise the chat completion under a 10 second timeout and
    the stripped content of its first choice. *)
Definition analyze_emergency_transcript (w : World) (transcript : string)
    : M string :=
  if negb (truthy transcript) || String.eqb (strip transcript) ""
  then mret unclear
  else
    let prompt := _create_analysis_prompt transcript in
    emit (ChatCompletion prompt);;
    match chat w prompt with
    | Returned (Some content :: _) => mret (strip content)
    | Returned (None :: _) =>
        raise (AnalysisError
          "Analysis failed: 'NoneType' object has no attribute 'strip'")
    | Returned [] => raise (AnalysisError "Analysis failed: list index out of range")
    | TimedOut => raise (AnalysisError "Emergency analysis timed out")
    | Failed e => raise (AnalysisError ("Analysis failed: " ++ e))
    end.

(** ** [email_service.py]

    Subject and body are formatted from the arguments and handed to
    [fast_mail.send_message] as one message to all recipients; the event
    records the arguments. *)

Definition send_emergency_alert (w : World) (recipient_emails : list string)
    (user_name : string) (location_lat location_lon : float)
    (ai_analysis timestamp : string) : M bool :=
  emit (SendRich recipient_emails user_name location_lat location_lon
          ai_analysis timestamp);;
  match smtp_template w with
  | None => mret true
  | Some e => raise (EmailNotificationError ("Email notification failed: " ++ e))
  end.

Definition send_fallback_alert (w : World) (recipient_emails : list string)
    (user_name : string) (location_lat location_lon : float)
    (timestamp : string) : M bool :=
  emit (SendBasic recipient_emails user_name location_lat location_lon
          timestamp);;
  match smtp_plain w with
  | None => mret true
  | Some e => raise (EmailNotificationError ("Fallback email failed: " ++ e))
  end.

(** ** [services.py] *)

(** The [dict] that [process_emergency_alert] returns. *)
Record Response := mkResponse {
  status : string;
  message : string;
  response_contacts_notified : nat;
  response_ai_analysis : option string;
  error : option string
}.

Definition _get_user_emergency_contacts (w : World) (user_id : string)
    : M (list EmergencyContact) :=
  emit (SelectContacts user_id);;
  match contacts_rows w with
  | Ok rows => mret rows
  | Raise e => raise e
  end.

(** [db.add(alert); await db.commit()]: a single-row insert that is either
    committed or raises. *)
Definition add_and_commit (w : World) (alert : Alert) : M unit :=
  emit (Commit alert);;
  match db_commit w alert with
  | None => insert_row alert
  | Some e => raise (OtherException e)
  end.

Definition success_alert (user : User) (latitude longitude : float)
    (transcript ai_analysis : string) (contact_emails : list string) : Alert :=
  mkAlert (id user) latitude longitude transcript ai_analysis
          (length contact_emails) "success" None.

Definition fallback_alert (user : User) (latitude longitude : float)
    (contact_emails : list string) (e : Exception) : Alert :=
  mkAlert (id user) latitude longitude "" "AI processing unavailable"
          (length contact_emails) "fallback" (Some (str e)).

(** [process_emergency_alert]; [timestamp] is the value of
    [datetime.now(UTC).isoformat()] taken on entry. *)
Definition process_emergency_alert (w : World) (user : User)
    (audio_data : bytes) (filename : string) (latitude longitude : float)
    (timestamp : string) : M Response :=
  emergency_contacts ← _get_user_emergency_contacts w (id user);
  match emergency_contacts with
  | [] => raise (AlertProcessingError "No emergency contacts configured")
  | _ =>
    let contact_emails := contact_email <$> emergency_contacts in
    try_except
      (transcript ← transcribe_audio w audio_data filename;
       ai_analysis ← analyze_emergency_transcript w transcript;
       send_emergency_alert w contact_emails (full_name user)
         latitude longitude ai_analysis timestamp;;
       add_and_commit w
         (success_alert user latitude longitude transcript ai_analysis
            contact_emails);;
       mret (mkResponse "success" "Emergency alert processed and sent"
               (length contact_emails) (Some ai_analysis) None))
      (λ e,
        try_except
          (send_fallback_alert w contact_emails (full_name user)
             latitude longitude timestamp;;
           add_and_commit w
             (fallback_alert user latitude longitude contact_emails e);;
           mret (mkResponse "fallback"
                   "Basic emergency alert sent (AI processing failed)"
                   (length contact_emails) None (Some (str e))))
          (λ fallback_error,
            raise (AlertProcessingError
                     ("Complete alert processing failure: "
                      ++ str fallback_error))))
  end.

(** Notification calls among the events. *)
Definition is_notification (ev : Event) : bool :=
  match ev with
  | SendRich _ _ _ _ _ _ | SendBasic _ _ _ _ _ => true
  | _ => false
  end.

Definition is_send_basic (ev : Event) : bool :=
  match ev with SendBasic _ _ _ _ _ => true | _ => false end.

Definition is_send_rich (ev : Event) : bool :=
  match ev with SendRich _ _ _ _ _ _ => true | _ => false end.

Definition is_chat (ev : Event) : bool :=
  match ev with ChatCompletion _ => true | _ => false end.

Definition notifications (st : Store) : list Event :=
  List.filter is_notification (trace st).

(** One invocation of the pipeline, observed from an empty log and an empty
    [alerts] table. *)
Definition invoke (w : World) (user : User) (audio_data : bytes)
    (filename : string) (latitude longitude : float) (timestamp : string)
    : Store * Result Response :=
  process_emergency_alert w user audio_data filename latitude longitude
    timestamp empty_store.

(** The exception [transcribe_audio] raises for a failed Whisper call. *)
Definition whisper_error (r : ApiResult string) : option Exception :=
  match r with
  | Returned _ => None
  | TimedOut => Some (TranscriptionError "Audio transcription timed out")
  | Failed e => Some (TranscriptionError ("Transcription failed: " ++ e))
  end.

(** The fallback notification was attempted and raised. *)
Definition fallback_notification_threw (w : World) (st : Store) : Prop :=
  List.filter is_send_basic (trace st) ≠ [] ∧ is_Some (smtp_plain w).

(** C3 as the specification words it: the invocation raises a processing
    failure with nothing persisted iff the fallback notification threw, and
    otherwise exactly one row is persisted and the call returns. *)
Definition catastrophic_claim (w : World) (r : Store * Result Response) : Prop :=
  (fallback_notification_threw w r.1
   ↔ alerts r.1 = [] ∧ ∃ msg, r.2 = Raise (AlertProcessingError msg))
  ∧ (¬ fallback_notification_threw w r.1
     → length (alerts r.1) = 1 ∧ ∃ resp, r.2 = Ok resp).

(** The place of a call in the pipeline: contacts query, transcription,
    analysis, rich mail, commit of the success row, basic mail, commit of the
    fallback row (a row of any other status is never built). *)
Definition phase (ev : Event) : nat :=
  match ev with
  | SelectContacts _ => 0
  | Transcription _ _ => 1
  | ChatCompletion _ => 2
  | SendRich _ _ _ _ _ _ => 3
  | Commit a => if String.eqb (processing_status a) "success" then 4 else 6
  | SendBasic _ _ _ _ _ => 5
  end.

(** Sample inputs. *)
Definition alice : User := mkUser "user-1" "Alice".
Definition bob : EmergencyContact := mkContact "bob@example.com".
Module Coordinates.
Import PrimFloat.
Definition here : float := 37.0%float.
Definition there : float := (-122.0)%float.
End Coordinates.
Export Coordinates.

(** Everything answers. *)
Definition w_all_up : World :=
  mkWorld (Ok [bob]) (Returned " help me ")
          (λ _, Returned [Some "Caller asks for help."]) None None (λ _, None).

(** Whisper times out; mail and database answer. *)
Definition w_whisper_down : World :=
  mkWorld (Ok [bob]) TimedOut (λ _, TimedOut) None None (λ _, None).

(** Whisper times out and every commit raises; mail answers. *)
Definition w_whisper_and_db_down : World :=
  mkWorld (Ok [bob]) TimedOut (λ _, TimedOut) None None
          (λ _, Some "connection lost").

(** OpenAI and mail answer; the database is down, so every commit
    raises. *)
Definition w_db_down : World :=
  mkWorld (Ok [bob]) (Returned " help me ")
          (λ _, Returned [Some "Caller asks for help."]) None None
          (λ _, Some "connection lost").

(** Whisper times out and the mail server is down: both mails raise. *)
Definition w_whisper_and_mail_down : World :=
  mkWorld (Ok [bob]) TimedOut (λ _, TimedOut) (Some "smtp down")
          (Some "smtp down") (λ _, None).

(** The recording is silence: Whisper returns blanks. *)
Definition w_silence : World :=
  mkWorld (Ok [bob]) (Returned "   ")
          (λ _, Returned [Some "Caller asks for help."]) None None (λ _, None).

(** No contact is configured. *)
Definition w_no_contacts : World :=
  mkWorld (Ok []) (Returned " help me ")
          (λ _, Returned [Some "Caller asks for help."]) None None (λ _, None).

Arguments _create_analysis_prompt : simpl never.

End Alerts.

(* ===================================================================== *)
(** * Trip gateway session: the message loop ([features/websockets])      *)
(* ===================================================================== *)

Module Session.
Import Registry.

Definition float := PrimFloat.float.

(** A value that [json.loads] returns. *)
#[warnings="-register-all"]
Inductive JSON :=
| JNull
| JBool (b : bool)
| JInt (z : Z)
| JFloat (f : float)
| JString (s : string)
| JArray (items : list JSON)
| JObject (fields : list (string * JSON)).

(** [d.get(key)] on a decoded object. *)
Fixpoint get (key : string) (fields : list (string * JSON)) : option JSON :=
  match fields with
  | [] => None
  | (k, v) :: rest => if String.eqb k key then Some v else get key rest
  end.

(** The functions of [json], [pydantic] and the Python runtime that the
    handlers call, taken as given: [json_loads] is [None] where [json.loads]
    raises [JSONDecodeError]; [coerce_float] is pydantic's reading of a value
    as a [float]; [validation_error] the text of its [ValidationError];
    [format_value] the text of a value inside an f-string;
    [attribute_error] the text of the [AttributeError] raised by [.get] on a
    value that is not an object; [send_error] the text of the exception of a
    [send_text] that raises. *)
Record Library := mkLibrary {
  json_loads : string → option JSON;
  json_dumps : JSON → string;
  coerce_float : JSON → option float;
  validation_error : list (string * JSON) → string;
  format_value : option JSON → string;
  attribute_error : JSON → string;
  model_dump_json : string → string → float → float → string;
  send_error : string → string
}.

(** [models.py]: the bounds of [latitude] and [longitude]. *)
Module Bounds.
Import PrimFloat.
Definition latitude_ok (x : float) : bool := (-90.0 <=? x)%float && (x <=? 90.0)%float.
Definition longitude_ok (x : float) : bool := (-180.0 <=? x)%float && (x <=? 180.0)%float.
End Bounds.
Export Bounds.

(** [MessageType]. *)
Definition LOCATION_UPDATE : string := "location_update".
Definition PARTICIPANT_LOCATION : string := "participant_location".
Definition ERROR : string := "error".

(** [LocationUpdateMessage] built from the fields of [message_data]: the
    coordinates, or the text of the validation error.  The [type] field is
    the literal checked by the caller. *)
Definition LocationUpdateMessage (lib : Library)
    (message_data : list (string * JSON)) : string + float * float :=
  match get "type" message_data, get "latitude" message_data,
        get "longitude" message_data with
  | Some (JString t), Some la, Some lo =>
      match coerce_float lib la, coerce_float lib lo with
      | Some latitude, Some longitude =>
          if String.eqb t LOCATION_UPDATE && latitude_ok latitude
             && longitude_ok longitude
          then inr (latitude, longitude)
          else inl (validation_error lib message_data)
      | _, _ => inl (validation_error lib message_data)
      end
  | _, _, _ => inl (validation_error lib message_data)
  end.

(** [services.py], [handle_location_update]: build the participant-location
    message (its [Location] is validated again), broadcast it to the trip
    without the sender, and report success; any exception gives [False]. *)
Definition handle_location_update (lib : Library) (net : Network)
    (trip_id user_id user_name : string) (latitude longitude : float)
    (connection_manager : ConnectionManager)
    : ConnectionManager * list Send * bool :=
  if latitude_ok latitude && longitude_ok longitude then
    let r := broadcast_to_trip net
               (model_dump_json lib user_id user_name latitude longitude)
               trip_id (Some user_id) connection_manager in
    (r.1, r.2, true)
  else (connection_manager, [], false).

(** The error replies of the message loop, as the [dict] given to
    [json.dumps]. *)
Definition error_msg (error : string) (detail : option string) : JSON :=
  JObject (("type", JString ERROR) :: ("error", JString error) ::
           match detail with
           | Some d => [("detail", JString d)]
           | None => []
           end).

(** What [websocket.receive_text()] gives: a text frame, or an exception
    (for instance [WebSocketDisconnect]) with its text. *)
Inductive Received :=
| Text (data : string)
| ReceiveRaised (e : string).

(** How the body of the inner [try] ends: it completes, or it raises
    [JSONDecodeError], or another exception with its text. *)
Inductive Handled :=
| Completed
| DecodeError
| OtherError (e : string).

(** The outcome of a stretch of the message loop: the registry, the sends
    attempted to the other participants, the texts whose send to this
    connection returned, and how the stretch ended. *)
Record Step (A : Type) := mkStep {
  manager : ConnectionManager;
  peer_sends : list Send;
  delivered : list string;
  state : A
}.
Arguments mkStep {A} _ _ _ _.
Arguments manager {A} _.
Arguments peer_sends {A} _.
Arguments delivered {A} _.
Arguments state {A} _.

(** The body of the inner [try] for one received frame. *)
Definition try_body (lib : Library) (net : Network) (websocket : WebSocket)
    (trip_id user_id user_name : string) (received : Received)
    (connection_manager : ConnectionManager) : Step Handled :=
  let unknown_type (got : option JSON) :=
    let text := json_dumps lib
                  (error_msg "Unknown message type"
                     (Some ("Received: " ++ format_value lib got))) in
    if net user_id websocket text
    then mkStep connection_manager [] [text] Completed
    else mkStep connection_manager [] [] (OtherError (send_error lib text)) in
  match received with
  | ReceiveRaised e => mkStep connection_manager [] [] (OtherError e)
  | Text data =>
      match json_loads lib data with
      | None => mkStep connection_manager [] [] DecodeError
      | Some (JObject message_data) =>
          match get "type" message_data with
          | Some (JString t) =>
              if String.eqb t LOCATION_UPDATE then
                match LocationUpdateMessage lib message_data with
                | inl e => mkStep connection_manager [] [] (OtherError e)
                | inr (latitude, longitude) =>
                    let r := handle_location_update lib net trip_id user_id
                               user_name latitude longitude
                               connection_manager in
                    mkStep r.1.1 r.1.2 [] Completed
                end
              else unknown_type (Some (JString t))
          | other => unknown_type other
          end
      | Some v =>
          mkStep connection_manager [] [] (OtherError (attribute_error lib v))
      end
  end.

(** After one iteration the session is still in the loop, or the loop was
    left by an exception. *)
Inductive LoopState :=
| InLoop
| LeftLoop.

(** [await websocket.send_text(json.dumps(msg))] in an [except] branch: when
    it raises, the exception leaves the loop. *)
Definition reply (lib : Library) (net : Network) (user_id : string)
    (websocket : WebSocket) (msg : JSON) (r : Step Handled) : Step LoopState :=
  if net user_id websocket (json_dumps lib msg)
  then mkStep (manager r) (peer_sends r)
         (delivered r ++ [json_dumps lib msg]) InLoop
  else mkStep (manager r) (peer_sends r) (delivered r) LeftLoop.

(** One iteration of [while True]: the body, then the [except] branches. *)
Definition iteration (lib : Library) (net : Network)
    (websocket : WebSocket) (trip_id user_id user_name : string)
    (received : Received) (connection_manager : ConnectionManager)
    : Step LoopState :=
  let r := try_body lib net websocket trip_id user_id user_name received
             connection_manager in
  match state r with
  | Completed => mkStep (manager r) (peer_sends r) (delivered r) InLoop
  | DecodeError =>
      reply lib net user_id websocket (error_msg "Invalid JSON format" None) r
  | OtherError e =>
      reply lib net user_id websocket
        (error_msg "Message processing failed" (Some e)) r
  end.

(** The loop over the frames received so far; when they are used up the
    session is blocked in [receive_text], still in the loop. *)
Fixpoint message_loop (lib : Library) (net : Network)
    (websocket : WebSocket) (trip_id user_id user_name : string)
    (inbox : list Received) (connection_manager : ConnectionManager)
    : Step LoopState :=
  match inbox with
  | [] => mkStep connection_manager [] [] InLoop
  | received :: rest =>
      let o := iteration lib net websocket trip_id user_id user_name received
                 connection_manager in
      match state o with
      | LeftLoop => o
      | InLoop =>
          let o' := message_loop lib net websocket trip_id user_id user_name
                      rest (manager o) in
          mkStep (manager o') (peer_sends o ++ peer_sends o')
            (delivered o ++ delivered o') (state o')
      end
  end.



(** Every send returns. *)
Definition all_up : Network := λ _ _ _, true.

End Session.

(* ===================================================================== *)
(** * Alert upload endpoint ([features/alerts/handlers.py])               *)
(* ===================================================================== *)

Module Upload.
Import Alerts.

(** [str.lower] on the code points below 256: the ASCII capitals and the
    Latin-1 capitals (all of 192 to 222 but the multiplication sign) move up
    by 32. *)
Definition lower_char (c : ascii) : ascii :=
  let n := nat_of_ascii c in
  if ((65 <=? n)%nat && (n <=? 90)%nat)
     || ((192 <=? n)%nat && (n <=? 222)%nat && negb (n =? 215)%nat)
  then ascii_of_nat (n + 32)
  else c.

Fixpoint lower (s : string) : string :=
  match s with
  | String c s' => String (lower_char c) (lower s')
  | EmptyString => EmptyString
  end.

Definition valid_types : list string :=
  ["audio/wav"; "audio/wave"; "audio/x-wav"; "audio/mpeg"; "audio/mp3";
   "audio/x-mp3"; "audio/mp4"; "audio/x-mp4a"; "audio/webm"].

(** [_is_valid_audio_file], on the [content_type] of the upload ([None] or a
    string). *)
Definition _is_valid_audio_file (content_type : option string) : bool :=
  match content_type with
  | None => false
  | Some ct =>
      if truthy ct then bool_decide (lower ct ∈ valid_types) else false
  end.

(** The background task that the endpoint schedules: a call of
    [process_emergency_alert] with these arguments. *)
Record Task := mkTask {
  task_user : User;
  task_audio_data : bytes;
  task_filename : string;
  task_latitude : float;
  task_longitude : float
}.

(** [AlertResponse]. *)
Record AlertResponse := mkAlertResponse {
  response_message : string;
  response_status : string;
  response_user_id : string;
  response_location : float * float
}.

(** The endpoint answers 202 with a response after scheduling a task, or
    raises an [HTTPException]. *)
Inductive HttpResult :=
| Accepted (task : Task) (response : AlertResponse)
| HTTPException (status_code : nat) (detail : string).

(** [create_emergency_alert].  [read] is what [await audio_file.read()]
    gives; [exc_str code detail] is the text of [str(e)] for an
    [HTTPException] with that status and detail. *)
Definition create_emergency_alert (exc_str : nat → string → string)
    (content_type filename : option string) (read : Result bytes)
    (latitude longitude : float) (current_user : User) : HttpResult :=
  if negb (_is_valid_audio_file content_type) then
    HTTPException 400
      "Invalid audio file. Supported formats: wav, mp3, mp4, mpeg, webm"
  else
    match read with
    | Raise e =>
        HTTPException 400 ("Audio file processing error: " ++ str e)
    | Ok audio_data =>
        if (Z.of_nat (length audio_data) =? 0)%Z then
          HTTPException 400
            ("Audio file processing error: "
             ++ exc_str 400 "Empty audio file")
        else if (Z.of_nat (length audio_data) >? 25 * 1024 * 1024)%Z then
          HTTPException 400
            ("Audio file processing error: "
             ++ exc_str 413 "Audio file too large (max 25MB)")
        else
          Accepted
            (mkTask current_user audio_data
               (match filename with
                | Some f => if truthy f then f else "emergency_audio.wav"
                | None => "emergency_audio.wav"
                end)
               latitude longitude)
            (mkAlertResponse "Emergency alert received and being processed"
               "processing" (id current_user) (latitude, longitude))
    end.

(** Running a scheduled task: the pipeline on the task's arguments. *)
Definition run_task (w : World) (task : Task) (timestamp : string)
    : Store * Result Response :=
  invoke w (task_user task) (task_audio_data task) (task_filename task)
    (task_latitude task) (task_longitude task) timestamp.

(** A stand-in for the text of an [HTTPException]. *)
Definition sample_exc_str (code : nat) (detail : string) : string := detail.

End Upload.

(* ===================================================================== *)
(** * WebSocket endpoint ([features/websockets/handlers.py],              *)
(**   [auth/security.py])                                                 *)
(* ===================================================================== *)

Module Endpoint.
Import Registry Session.

(** The exceptions that [websocket_endpoint] tells apart; every other
    exception is an [OtherException]. *)
Inductive Exception :=
| WebSocketAuthError (msg : string)
| TripAccessError (msg : string)
| WebSocketDisconnect
| OtherException (msg : string).

Inductive Result (A : Type) :=
| Ok (a : A)
| Raise (e : Exception).
Arguments Ok {A} _.
Arguments Raise {A} _.

(** The columns of a [User] and of a [TripPublic] that the endpoint reads;
    [id] is the text [str(user.id)]. *)
Record User := mkUser {
  id : string;
  full_name : string
}.

Record TripPublic := mkTrip {
  destination_name : string;
  is_active : bool
}.

(** What [jwt.decode] gives: a [JWTError], or a payload with its [sub]
    entry, if any. *)
Inductive Decoded :=
| JWTError
| Payload (sub : option string).

(** A database query returns a row or [None], or raises. *)
Inductive Query (A : Type) :=
| Row (r : option A)
| QueryRaised (e : string).
Arguments Row {A} _.
Arguments QueryRaised {A} _.

(** The collaborators of the endpoint, taken as given: [jwt_decode];
    [UUID], which is [None] where the constructor raises [ValueError];
    [select_user], the query of [get_user_by_id]; [get_trip_by_id] of the
    trips feature, on the trip id and the user's id; [accept], the exception
    that [websocket.accept()] raises, if any; [send_exception], the exception
    that a [send_text] on this connection raises when it fails. *)
Record Backend := mkBackend {
  jwt_decode : string → Decoded;
  UUID : string → option string;
  select_user : string → Query User;
  get_trip_by_id : string → string → Query TripPublic;
  accept : option Exception;
  send_exception : Exception
}.

(** [security.py], [get_user_by_id]: a text that is not a UUID gives
    [None] without a query. *)
Definition get_user_by_id (b : Backend) (user_id : string) : Query User :=
  match UUID b user_id with
  | None => Row None
  | Some uuid_id => select_user b uuid_id
  end.

(** [security.py], [authenticate_websocket_token].  The
    [WebSocketAuthError] raised inside the [try] for a payload without [sub]
    is not a [JWTError] and leaves the [try] as it is. *)
Definition authenticate_websocket_token (b : Backend) (token : string)
    : Result User :=
  if negb (truthy token) then Raise (WebSocketAuthError "Token is required")
  else
    match jwt_decode b token with
    | JWTError => Raise (WebSocketAuthError "Invalid token")
    | Payload None => Raise (WebSocketAuthError "Invalid token payload")
    | Payload (Some user_id) =>
        match get_user_by_id b user_id with
        | QueryRaised e => Raise (OtherException e)
        | Row None => Raise (WebSocketAuthError "User not found")
        | Row (Some user) => Ok user
        end
    end.

(** [MessageType]. *)
Definition PARTICIPANT_JOINED : string := "participant_joined".
Definition PARTICIPANT_LEFT : string := "participant_left".
Definition CONNECTION_ACK : string := "connection_ack".

(** The three messages of the endpoint, as the [dict] given to
    [json.dumps]. *)
Definition ack_message (trip_id : string) (participant_count : nat)
    (destination_name : string) : JSON :=
  JObject [("type", JString CONNECTION_ACK);
           ("trip_id", JString trip_id);
           ("participant_count", JInt (Z.of_nat participant_count));
           ("message", JString ("Connected to trip: " ++ destination_name))].

Definition join_message (user_id full_name : string)
    (participant_count : nat) : JSON :=
  JObject [("type", JString PARTICIPANT_JOINED);
           ("user_id", JString user_id);
           ("full_name", JString full_name);
           ("participant_count", JInt (Z.of_nat participant_count))].

Definition leave_message (user_id full_name : string)
    (remaining_count : nat) : JSON :=
  JObject [("type", JString PARTICIPANT_LEFT);
           ("user_id", JString user_id);
           ("full_name", JString full_name);
           ("participant_count", JInt (Z.of_nat remaining_count))].

(** A call of [websocket.close]. *)
Record Close := mkClose {
  code : nat;
  reason : string
}.

(** The [except] clauses of the outer [try]: the close attempted for an
    exception. *)
Definition handler (e : Exception) : list Close :=
  match e with
  | WebSocketAuthError msg => [mkClose 4001 ("Authentication failed: " ++ msg)]
  | TripAccessError msg => [mkClose 4003 msg]
  | WebSocketDisconnect => []
  | OtherException _ => [mkClose 1011 "Internal server error"]
  end.

(** The [finally] clause once [user_id] is bound: [disconnect], then the
    leave notice to the participants that remain, if any.  The broadcast
    never raises. *)
Definition finally_block (lib : Library) (net : Network)
    (trip_id user_id full_name : string) (connection_manager : ConnectionManager)
    : ConnectionManager * list Send :=
  let m := disconnect user_id connection_manager in
  let remaining_count := length (get_trip_participants trip_id m) in
  if (0 <? remaining_count)%nat then
    broadcast_to_trip net
      (json_dumps lib (leave_message user_id full_name remaining_count))
      trip_id None m
  else (m, []).

(** What one run of the endpoint leaves behind: the registry, the texts
    whose send to this connection returned, the sends attempted to other
    participants, the closes attempted on this connection, and whether the
    coroutine is still waiting in [receive_text]. *)
Record Outcome := mkOutcome {
  registry : ConnectionManager;
  to_client : list string;
  to_peers : list Send;
  closes : list Close;
  running : bool
}.

(** [websocket_endpoint] for one connection, run on the frames in [inbox]
    with no other coroutine changing the registry in between.  When the
    frames are used up the coroutine waits in [receive_text] and the
    [finally] clause has not run. *)
Definition websocket_endpoint (b : Backend) (lib : Library) (net : Network)
    (websocket : WebSocket) (trip_id token : string) (inbox : list Received)
    (connection_manager : ConnectionManager) : Outcome :=
  match authenticate_websocket_token b token with
  | Raise e => mkOutcome connection_manager [] [] (handler e) false
  | Ok user =>
      let user_id := id user in
      let finish (m : ConnectionManager) (texts : list string)
                 (sends : list Send) (closed : list Close) :=
        let f := finally_block lib net trip_id user_id (full_name user) m in
        mkOutcome f.1 texts (sends ++ f.2) closed false in
      match get_trip_by_id b trip_id (id user) with
      | QueryRaised e =>
          finish connection_manager [] [] (handler (OtherException e))
      | Row None =>
          finish connection_manager [] []
            [mkClose 4003 "Trip not found or access denied"]
      | Row (Some trip) =>
          if negb (is_active trip) then
            finish connection_manager [] [] [mkClose 4004 "Trip is not active"]
          else
            match accept b with
            | Some e => finish connection_manager [] [] (handler e)
            | None =>
                let m1 := connect websocket trip_id user_id true
                            connection_manager in
                let participant_count :=
                  length (get_trip_participants trip_id m1) in
                let ack := json_dumps lib
                             (ack_message trip_id participant_count
                                (destination_name trip)) in
                if net user_id websocket ack then
                  let j := broadcast_to_trip net
                             (json_dumps lib
                                (join_message user_id (full_name user)
                                   participant_count))
                             trip_id (Some user_id) m1 in
                  let o := message_loop lib net websocket trip_id user_id
                             (full_name user) inbox j.1 in
                  match state o with
                  | InLoop =>
                      mkOutcome (manager o) (ack :: delivered o)
                        (j.2 ++ peer_sends o)%list [] true
                  | LeftLoop =>
                      finish (manager o) (ack :: delivered o)
                        (j.2 ++ peer_sends o)%list
                        (handler (send_exception b))
                  end
                else finish m1 [] [] (handler (send_exception b))
            end
      end
  end.

(** Sample collaborators: the token [t-una] names the user [u] (Una), the
    token [t-vic] the user [v] (Vic) and the token [t-nosub] has no [sub];
    trip [A] is active, trip [Z] is inactive and no other trip is found;
    [accept] returns and a failed send raises [WebSocketDisconnect]. *)
Definition una : User := mkUser "u" "Una".
Definition vic : User := mkUser "v" "Vic".

Definition sample_backend : Backend :=
  mkBackend
    (λ token, if String.eqb token "t-una" then Payload (Some "u")
              else if String.eqb token "t-vic" then Payload (Some "v")
              else if String.eqb token "t-nosub" then Payload None
              else JWTError)
    Some
    (λ uuid_id, if String.eqb uuid_id "u" then Row (Some una)
                else if String.eqb uuid_id "v" then Row (Some vic)
                else Row None)
    (λ trip_id user_id,
       if String.eqb trip_id "A" then Row (Some (mkTrip "Harbour" true))
       else if String.eqb trip_id "Z" then Row (Some (mkTrip "Old town" false))
       else Row None)
    None
    WebSocketDisconnect.

(** A stand-in for the library that decodes the text [here] to a location
    update and renders every message by its [type]. *)
Definition sample_decoder : Library :=
  mkLibrary
    (λ data, if String.eqb data "here"
             then Some (JObject [("type", JString "location_update");
                                 ("latitude", JFloat Alerts.Coordinates.here);
                                 ("longitude", JFloat Alerts.Coordinates.there)])
             else if String.eqb data "{" then None
             else Some (JObject [("type", JString data)]))
    (λ v, match v with
          | JObject fields =>
              match get "type" fields with
              | Some (JString t) => t
              | _ => "object"
              end
          | _ => "value"
          end)
    (λ v, match v with JFloat f => Some f | _ => None end)
    (λ _, "validation error")
    (λ _, "None")
    (λ _, "object has no attribute 'get'")
    (λ u n _ _, "location of " ++ n)
    (λ _, "send failed").

(** User [u] is registered in trip [A] on handle 1 and user [v] on handle 2. *)
Definition room_A : ConnectionManager :=
  run [Connect 1 "A" "u" true; Connect 2 "A" "v" true] init.

End Endpoint.

(* ===================================================================== *)
(** * Sessions on the shared registry                                     *)
(* ===================================================================== *)

(** [connection_manager] is one object of the module, shared by every
    session of the process.  While a session is in its message loop the
    other sessions run at its [await]s and change the registry through
    [connect], [disconnect] and [broadcast_to_trip].  Here their operations
    are taken between two frames of the session. *)
Module Shared.
Import Registry Session Endpoint.

(** What happens next while the session is in its loop: it receives a frame,
    or another session performs an operation on the registry. *)
Inductive Turn :=
| Frame (received : Received)
| Other (o : Op).

(** The message loop of [websocket_endpoint] among the other sessions: the
    sends and the texts recorded are those of this session. *)
Fixpoint message_loop_among (lib : Library) (net : Network)
    (websocket : WebSocket) (trip_id user_id user_name : string)
    (turns : list Turn) (connection_manager : ConnectionManager)
    : Step LoopState :=
  match turns with
  | [] => mkStep connection_manager [] [] InLoop
  | Other o :: rest =>
      message_loop_among lib net websocket trip_id user_id user_name rest
        (step connection_manager o)
  | Frame received :: rest =>
      let o := iteration lib net websocket trip_id user_id user_name received
                 connection_manager in
      match state o with
      | LeftLoop => o
      | InLoop =>
          let o' := message_loop_among lib net websocket trip_id user_id
                      user_name rest (manager o) in
          mkStep (manager o') (peer_sends o ++ peer_sends o')
            (delivered o ++ delivered o') (state o')
      end
  end.



(** [websocket_endpoint] with the other sessions acting while this one is
    in its message loop; up to the loop it is the endpoint as above. *)
Definition websocket_endpoint_among (b : Backend) (lib : Library)
    (net : Network) (websocket : WebSocket) (trip_id token : string)
    (turns : list Turn) (connection_manager : ConnectionManager) : Outcome :=
  match authenticate_websocket_token b token with
  | Raise e => mkOutcome connection_manager [] [] (handler e) false
  | Ok user =>
      let user_id := id user in
      let finish (m : ConnectionManager) (texts : list string)
                 (sends : list Send) (closed : list Close) :=
        let f := finally_block lib net trip_id user_id (full_name user) m in
        mkOutcome f.1 texts (sends ++ f.2) closed false in
      match get_trip_by_id b trip_id (id user) with
      | QueryRaised e =>
          finish connection_manager [] [] (handler (OtherException e))
      | Row None =>
          finish connection_manager [] []
            [mkClose 4003 "Trip not found or access denied"]
      | Row (Some trip) =>
          if negb (is_active trip) then
            finish connection_manager [] [] [mkClose 4004 "Trip is not active"]
          else
            match accept b with
            | Some e => finish connection_manager [] [] (handler e)
            | None =>
                let m1 := connect websocket trip_id user_id true
                            connection_manager in
                let participant_count :=
                  length (get_trip_participants trip_id m1) in
                let ack := json_dumps lib
                             (ack_message trip_id participant_count
                                (destination_name trip)) in
                if net user_id websocket ack then
                  let j := broadcast_to_trip net
                             (json_dumps lib
                                (join_message user_id (full_name user)
                                   participant_count))
                             trip_id (Some user_id) m1 in
                  let o := message_loop_among lib net websocket trip_id
                             user_id (full_name user) turns j.1 in
                  match state o with
                  | InLoop =>
                      mkOutcome (manager o) (ack :: delivered o)
                        (j.2 ++ peer_sends o)%list [] true
                  | LeftLoop =>
                      finish (manager o) (ack :: delivered o)
                        (j.2 ++ peer_sends o)%list
                        (handler (send_exception b))
                  end
                else finish m1 [] [] (handler (send_exception b))
            end
      end
  end.

End Shared.

(* ===================================================================== *)
(** * Properties of the connection registry                               *)
(* ===================================================================== *)

Module RegistryProps.
Import Registry.

(** ** Pointwise description of [connect] and [disconnect] *)

Lemma dict_empty_spec {V} (m : gmap string V) : dict_empty m = true ↔ m = ∅.
Proof.
  unfold dict_empty. rewrite <- map_to_list_empty_iff.
  destruct (map_to_list m); split; congruence.
Qed.

Lemma truthy_spec s : truthy s = true ↔ s ≠ "".
Proof. destruct s; simpl; split; congruence. Qed.

Lemma connect_mapping ws t u s v :
  user_trip_mapping (connect ws t u true s) !! v =
  if decide (v = u) then Some t else user_trip_mapping s !! v.
Proof.
  simpl. case_decide; subst.
  - apply lookup_insert_eq.
  - by apply lookup_insert_ne.
Qed.

Lemma connect_handle ws t u s t' v :
  member_handle t' v (connect ws t u true s) =
  if decide (t' = t ∧ v = u) then Some ws else member_handle t' v s.
Proof.
  unfold member_handle. simpl.
  destruct (decide (t' = t)) as [->|Ht].
  - rewrite lookup_alter_eq.
    destruct (trip_connections s !! t) as [m|] eqn:E; simpl.
    + rewrite E. simpl.
      case_decide as H.
      * destruct H as [_ ->]. apply lookup_insert_eq.
      * rewrite lookup_insert_ne; [done|]. intros ->. by apply H.
    + rewrite lookup_insert_eq. simpl.
      case_decide as H.
      * destruct H as [_ ->]. apply lookup_insert_eq.
      * rewrite lookup_insert_ne; [|intros ->; by apply H].
        by rewrite lookup_empty.
  - rewrite lookup_alter_ne; [|done].
    rewrite decide_False; [|tauto].
    destruct (trip_connections s !! t) eqn:E; [done|].
    rewrite lookup_insert_ne; done.
Qed.

Lemma disconnect_mapping u s v :
  user_trip_mapping (disconnect u s) !! v =
  if decide (v = u) then None else user_trip_mapping s !! v.
Proof.
  unfold disconnect.
  destruct (user_trip_mapping s !! u) as [t|] eqn:E.
  - assert (user_trip_mapping
              (mkManager (trip_connections s) (delete u (user_trip_mapping s))) !! v
            = if decide (v = u) then None else user_trip_mapping s !! v) as H.
    { simpl. case_decide; subst.
      - apply lookup_delete_eq.
      - by apply lookup_delete_ne. }
    destruct (truthy t); [|done].
    destruct (trip_connections s !! t); [|done].
    by destruct (dict_empty _).
  - case_decide; subst; done.
Qed.

Lemma disconnect_handle u s t v :
  member_handle t v (disconnect u s) =
  if decide (v = u ∧ user_trip_mapping s !! u = Some t ∧ t ≠ "")
  then None else member_handle t v s.
Proof.
  unfold disconnect, member_handle.
  destruct (user_trip_mapping s !! u) as [t0|] eqn:E; cycle 1.
  { rewrite decide_False; [done|]. intros (_ & ? & _). done. }
  destruct (truthy t0) eqn:Ht0; cycle 1.
  { simpl. rewrite decide_False; [done|].
    intros (_ & [= ->] & Hne). apply truthy_spec in Hne. congruence. }
  apply truthy_spec in Ht0.
  destruct (trip_connections s !! t0) as [m|] eqn:Em; cycle 1.
  { simpl. case_decide as H; [|done].
    destruct H as (_ & [= ->] & _). by rewrite Em. }
  destruct (dict_empty (delete u m)) eqn:Hd; simpl.
  - apply dict_empty_spec in Hd.
    destruct (decide (t = t0)) as [->|Hne].
    + rewrite lookup_delete_eq, Em. simpl.
      case_decide as H; [done|].
      assert (v ≠ u) as Hv by (intros ->; apply H; done).
      rewrite <- (lookup_delete_ne m u v) by done.
      by rewrite Hd, lookup_empty.
    + rewrite lookup_delete_ne by done.
      rewrite decide_False; [done|]. intros (_ & [= ->] & _). done.
  - destruct (decide (t = t0)) as [->|Hne].
    + rewrite lookup_insert_eq, Em. simpl.
      case_decide as H.
      * destruct H as (-> & _). apply lookup_delete_eq.
      * apply lookup_delete_ne. intros ->. apply H. done.
    + rewrite lookup_insert_ne by done.
      rewrite decide_False; [done|]. intros (_ & [= ->] & _). done.
Qed.

Lemma connect_pruned ws t u a s : pruned s → pruned (connect ws t u a s).
Proof.
  intros Hp t'. destruct a; [|apply Hp]. simpl.
  destruct (decide (t' = t)) as [->|Hne].
  - rewrite lookup_alter_eq.
    destruct (trip_connections s !! t) as [m|] eqn:E.
    + rewrite E. simpl. intros H%(inj Some). by apply insert_non_empty in H.
    + rewrite lookup_insert_eq. simpl. intros H%(inj Some).
      by apply insert_non_empty in H.
  - rewrite lookup_alter_ne by done.
    destruct (trip_connections s !! t) eqn:E; [apply Hp|].
    rewrite lookup_insert_ne by done. apply Hp.
Qed.

Lemma disconnect_pruned u s : pruned s → pruned (disconnect u s).
Proof.
  intros Hp t. unfold disconnect.
  destruct (user_trip_mapping s !! u) as [t0|]; [|apply Hp].
  destruct (truthy t0); [|apply Hp].
  destruct (trip_connections s !! t0) as [m|] eqn:Em; [|apply Hp].
  destruct (dict_empty (delete u m)) eqn:Hd; simpl.
  - destruct (decide (t = t0)) as [->|Hne].
    + by rewrite lookup_delete_eq.
    + rewrite lookup_delete_ne by done. apply Hp.
  - destruct (decide (t = t0)) as [->|Hne].
    + rewrite lookup_insert_eq. intros [= H].
      apply dict_empty_spec in H. congruence.
    + rewrite lookup_insert_ne by done. apply Hp.
Qed.

Lemma cleanup_pruned l s : pruned s → pruned (cleanup l s).
Proof.
  revert s. induction l as [|u l IH]; intros s Hp; [done|].
  apply IH. by apply disconnect_pruned.
Qed.

Lemma broadcast_state net m t e s :
  ∃ l, (broadcast_to_trip net m t e s).1 = cleanup l s.
Proof.
  unfold broadcast_to_trip.
  destruct (trip_connections s !! t) as [mem|]; [|by exists []].
  destruct (broadcast_pass net m e (map_to_list mem)) as [sent l].
  by exists l.
Qed.

Lemma step_pruned s o : pruned s → pruned (step s o).
Proof.
  intros Hp. destruct o as [ws t u a|u|net m t e]; simpl.
  - by apply connect_pruned.
  - by apply disconnect_pruned.
  - destruct (broadcast_state net m t e s) as [l ->]. by apply cleanup_pruned.
Qed.

Lemma init_pruned : pruned init.
Proof. intros t. simpl. by rewrite lookup_empty. Qed.

Lemma run_pruned ops s : pruned s → pruned (run ops s).
Proof.
  revert s. induction ops as [|o ops IH]; intros s Hp; [done|].
  apply IH. by apply step_pruned.
Qed.

(** ** The index invariants along a run *)

Lemma pruned_trip_keys s : pruned s → trip_keys_nonempty s.
Proof.
  intros Hp t. split.
  - intros [m Hm]. exists m. split; [done|]. intros ->. by apply (Hp t).
  - intros (m & Hm & _). by exists m.
Qed.

Lemma connect_mapping_sound ws t u a s :
  mapping_sound s → mapping_sound (connect ws t u a s).
Proof.
  intros Hs. destruct a; [|done]. intros v t'. unfold is_member.
  rewrite connect_mapping, connect_handle.
  case_decide as Hv.
  - intros [= <-]. subst v. by rewrite decide_True.
  - intros Hv'. rewrite decide_False by tauto. by apply Hs.
Qed.

Lemma disconnect_mapping_sound u s :
  mapping_sound s → mapping_sound (disconnect u s).
Proof.
  intros Hs v t. unfold is_member.
  rewrite disconnect_mapping, disconnect_handle.
  case_decide as Hv; [done|].
  intros Hv'. rewrite decide_False by tauto. by apply Hs.
Qed.

Lemma cleanup_mapping_sound l s : mapping_sound s → mapping_sound (cleanup l s).
Proof.
  revert s. induction l as [|u l IH]; intros s Hs; [done|].
  apply IH. by apply disconnect_mapping_sound.
Qed.

Lemma step_mapping_sound s o : mapping_sound s → mapping_sound (step s o).
Proof.
  intros Hs. destruct o as [ws t u a|u|net m t e]; simpl.
  - by apply connect_mapping_sound.
  - by apply disconnect_mapping_sound.
  - destruct (broadcast_state net m t e s) as [l ->].
    by apply cleanup_mapping_sound.
Qed.

Lemma run_mapping_sound ops s : mapping_sound s → mapping_sound (run ops s).
Proof.
  revert s. induction ops as [|o ops IH]; intros s Hs; [done|].
  apply IH. by apply step_mapping_sound.
Qed.

Lemma init_mapping_sound : mapping_sound init.
Proof. intros u t. simpl. by rewrite lookup_empty. Qed.

Lemma connect_members_mapped ws t u s :
  t ≠ "" →
  user_trip_mapping s !! u = None ∨ user_trip_mapping s !! u = Some t →
  members_mapped s → members_mapped (connect ws t u true s).
Proof.
  intros Ht Hu [Hm Hne]. split.
  - intros v t'. unfold is_member.
    rewrite connect_mapping, connect_handle.
    case_decide as Hd.
    + destruct Hd as [-> ->]. by rewrite decide_True.
    + intros Hv%Hm. case_decide as Hvu; [|done]. subst v.
      destruct Hu as [Hu|Hu]; [congruence|].
      exfalso. apply Hd. split; congruence.
  - intros v t'. rewrite connect_mapping. case_decide.
    + by intros [= <-].
    + apply Hne.
Qed.

Lemma disconnect_members_mapped u s :
  members_mapped s → members_mapped (disconnect u s).
Proof.
  intros [Hm Hne]. split.
  - intros v t. unfold is_member.
    rewrite disconnect_mapping, disconnect_handle.
    case_decide as Hd; [by intros [? ?]|].
    intros Hv%Hm. case_decide as Hvu; [|done]. subst v.
    exfalso. apply Hd. eauto.
  - intros v t. rewrite disconnect_mapping. case_decide; [done|apply Hne].
Qed.

Lemma cleanup_members_mapped l s :
  members_mapped s → members_mapped (cleanup l s).
Proof.
  revert s. induction l as [|u l IH]; intros s Hs; [done|].
  apply IH. by apply disconnect_members_mapped.
Qed.

Lemma run_members_mapped ops s :
  one_trip_per_user ops s = true →
  members_mapped s → members_mapped (run ops s).
Proof.
  revert s. induction ops as [|o ops IH]; intros s Hok Hs; [done|].
  simpl in Hok. apply andb_true_iff in Hok as [Ho Hok].
  apply IH; [done|].
  destruct o as [ws t u [|]|u|net m t e]; simpl; try done.
  - apply andb_true_iff in Ho as [Ht Hu].
    apply truthy_spec in Ht. apply bool_decide_eq_true in Hu.
    by apply connect_members_mapped.
  - by apply disconnect_members_mapped.
  - destruct (broadcast_state net m t e s) as [l ->].
    by apply cleanup_members_mapped.
Qed.

Lemma init_members_mapped : members_mapped init.
Proof.
  split; intros u t.
  - unfold is_member, member_handle. simpl. rewrite lookup_empty.
    by intros [? ?].
  - simpl. by rewrite lookup_empty.
Qed.

Lemma mapped_user_keys_exact s :
  mapping_sound s → members_mapped s → user_keys_exact s.
Proof.
  intros Hs [Hm _] u. split.
  - intros [t Ht]. exists t. split; [by apply Hs|].
    intros t' Ht'%Hm. congruence.
  - intros (t & Ht%Hm & _). by exists t.
Qed.

(** ** The broadcast pass and the cleanup *)

Lemma broadcast_pass_sent net m e l :
  (broadcast_pass net m e l).1 =
  (λ p, mkSend p.1 p.2 m) <$> filter (attempted net m e) l.
Proof.
  induction l as [|[u ws] l IH]; [done|]. simpl.
  destruct (broadcast_pass net m e l) as [sent dis]. simpl in IH.
  destruct (is_excluded u e) eqn:E; simpl.
  - rewrite filter_cons_False; [apply IH|].
    unfold attempted. simpl. congruence.
  - rewrite filter_cons_True by done.
    destruct (net u ws m); simpl; by rewrite IH.
Qed.

Lemma broadcast_pass_disconnected net m e l :
  (broadcast_pass net m e l).2 = (filter (failed net m e) l).*1.
Proof.
  induction l as [|[u ws] l IH]; [done|]. simpl.
  destruct (broadcast_pass net m e l) as [sent dis]. simpl in IH.
  destruct (is_excluded u e) eqn:E; simpl.
  - rewrite filter_cons_False; [apply IH|].
    unfold failed. simpl. intros [? _]. congruence.
  - destruct (net u ws m) eqn:N; simpl.
    + rewrite filter_cons_False; [apply IH|].
      unfold failed. simpl. intros [_ ?]. congruence.
    + rewrite filter_cons_True by done. simpl. by rewrite IH.
Qed.

Lemma participants_spec t u s :
  u ∈ get_trip_participants t s ↔ is_member u t s.
Proof.
  unfold get_trip_participants, is_member, member_handle.
  rewrite list_elem_of_fmap. split.
  - intros ([u' ws] & -> & Hin). apply elem_of_map_to_list in Hin.
    destruct (trip_connections s !! t) as [m|]; simpl in *.
    + by exists ws.
    + by rewrite lookup_empty in Hin.
  - intros [ws Hws]. exists (u, ws). split; [done|].
    apply elem_of_map_to_list.
    destruct (trip_connections s !! t) as [m|]; simpl in *; done.
Qed.

Lemma cleanup_handle_notin l s t v :
  v ∉ l → member_handle t v (cleanup l s) = member_handle t v s.
Proof.
  revert s. induction l as [|u l IH]; intros s Hv; [done|].
  apply not_elem_of_cons in Hv as [Hvu Hv]. simpl.
  rewrite IH by done. rewrite disconnect_handle.
  apply decide_False. intros [? _]. done.
Qed.

Lemma cleanup_handle_gone l s t u :
  member_handle t u s = None → member_handle t u (cleanup l s) = None.
Proof.
  revert s. induction l as [|v l IH]; intros s Hu; [done|].
  simpl. apply IH. rewrite disconnect_handle. by case_decide.
Qed.

Lemma cleanup_removes l s t u :
  u ∈ l → user_trip_mapping s !! u = Some t → t ≠ "" →
  member_handle t u (cleanup l s) = None.
Proof.
  intros Hin Hu Ht.
  assert (user_trip_mapping s !! u = Some t ∨ member_handle t u s = None)
    as H by (by left).
  clear Hu. revert s H. induction l as [|v l IH]; intros s H.
  { by apply elem_of_nil in Hin. }
  simpl. destruct (decide (u = v)) as [<-|Hne].
  - apply cleanup_handle_gone. rewrite disconnect_handle.
    destruct H as [H|H].
    + by rewrite decide_True.
    + by case_decide.
  - apply elem_of_cons in Hin as [?|Hin]; [done|].
    apply IH; [done|]. destruct H as [H|H].
    + left. rewrite disconnect_mapping. by rewrite decide_False.
    + right. rewrite disconnect_handle. by case_decide.
Qed.

Lemma filter_all {A} (P : A → Prop) `{!∀ x, Decision (P x)} (l : list A) :
  Forall P l → filter P l = l.
Proof.
  induction 1 as [|x l Hx _ IH]; [done|].
  rewrite filter_cons_True by done. by rewrite IH.
Qed.

Lemma filter_excluded_length (members : gmap string WebSocket) net m e :
  is_Some (members !! e) →
  length (filter (attempted net m (Some e)) (map_to_list members))
  = size members - 1.
Proof.
  intros [ws Hws].
  rewrite <- (map_to_list_delete members e ws Hws).
  rewrite <- (insert_delete_id members e ws Hws) at 2.
  rewrite map_size_insert_None by apply lookup_delete_eq.
  rewrite filter_cons_False; cycle 1.
  { unfold attempted. simpl. by rewrite bool_decide_eq_true_2. }
  rewrite filter_all.
  - rewrite length_map_to_list. lia.
  - apply Forall_forall. intros [u w] Hin%elem_of_map_to_list.
    unfold attempted. simpl. apply bool_decide_eq_false_2.
    intros ->. by rewrite lookup_delete_eq in Hin.
Qed.

(** ** Stale memberships *)

Lemma disconnect_stale A u h v s : stale A u h s → stale A u h (disconnect v s).
Proof.
  intros [Hh Hm]. split.
  - rewrite disconnect_handle. rewrite decide_False; [done|].
    intros (-> & ? & _). done.
  - rewrite disconnect_mapping. by case_decide.
Qed.

Lemma cleanup_stale A u h l s : stale A u h s → stale A u h (cleanup l s).
Proof.
  revert s. induction l as [|v l IH]; intros s Hs; [done|].
  apply IH. by apply disconnect_stale.
Qed.

Lemma run_stale A u h ops s :
  no_reconnect A u ops = true → stale A u h s → stale A u h (run ops s).
Proof.
  revert s. induction ops as [|o ops IH]; intros s Hok Hs; [done|].
  simpl in Hok. apply andb_true_iff in Hok as [Ho Hok].
  apply IH; [done|].
  destruct o as [ws t v [|]|v|net m t e]; cbn [step]; [|done|..].
  - apply negb_true_iff, bool_decide_eq_false in Ho.
    destruct Hs as [Hh Hm]. split.
    + rewrite connect_handle. rewrite decide_False; [done|].
      intros [-> ->]. by apply Ho.
    + rewrite connect_mapping. case_decide; [|done].
      intros [= ->]. subst v. by apply Ho.
  - by apply disconnect_stale.
  - destruct (broadcast_state net m t e s) as [l ->]. by apply cleanup_stale.
Qed.

(** ** Properties of the registry *)

(** Closed decidable goals are settled by evaluation. *)
Ltac by_eval := refine (bool_decide_unpack _ _); vm_compute; exact I.
Ltac some_by_eval := eexists; vm_compute; reflexivity.

(** C1, counterexample: after [u] connects to trip [A] and then to trip [B],
    [u] is a key of [user_trip_mapping] but appears in two member maps, so the
    index invariant as stated does not hold after this connect sequence. *)
Lemma registry_index_counterexample :
  ¬ bidirectional_index
      (run [Connect 1 "A" "u" true; Connect 3 "B" "u" true] init).
Proof.
  intros [_ Hu]. destruct (proj1 (Hu "u")) as (t & _ & Huniq).
  - some_by_eval.
  - assert ("A" = t) as HA by (apply Huniq; some_by_eval).
    assert ("B" = t) as HB by (apply Huniq; some_by_eval).
    congruence.
Qed.

(** C1, amended: after every sequence of operations from the empty registry a
    trip id is a key of [trip_connections] iff its member map is non-empty,
    and every key of [user_trip_mapping] is a member of the trip it names; if
    moreover every connect names a non-empty trip id and a user not registered
    under another trip, a user id is a key of [user_trip_mapping] iff the user
    appears in exactly one member map. *)
Theorem registry_index_invariant (ops : list Op) :
  trip_keys_nonempty (run ops init)
  ∧ mapping_sound (run ops init)
  ∧ (one_trip_per_user ops init = true → user_keys_exact (run ops init)).
Proof.
  split; [|split].
  - apply pruned_trip_keys, run_pruned, init_pruned.
  - apply run_mapping_sound, init_mapping_sound.
  - intros Hok. apply mapped_user_keys_exact.
    + apply run_mapping_sound, init_mapping_sound.
    + by apply run_members_mapped, init_members_mapped.
Qed.

Lemma registry_index_invariant_witness :
  one_trip_per_user
    [Connect 1 "A" "u" true; Connect 2 "A" "v" true; Disconnect "u"] init = true
  ∧ user_keys_exact
      (run [Connect 1 "A" "u" true; Connect 2 "A" "v" true; Disconnect "u"] init).
Proof.
  split; [reflexivity|].
  apply (registry_index_invariant
           [Connect 1 "A" "u" true; Connect 2 "A" "v" true; Disconnect "u"]).
  reflexivity.
Defined.

(** C4, counterexample: in the registry reached by [two_trips], a broadcast to
    trip [A] that excludes [v] attempts the send to the stale handle of [u],
    the send raises, and [u] is still listed for trip [A] afterwards. *)
Lemma broadcast_counterexample :
  ¬ broadcast_claim u_is_down "m" "A" "v" two_trips.
Proof.
  intros [_ H]. apply (H (mkSend "u" 1 "m")).
  - by_eval.
  - reflexivity.
  - by_eval.
Qed.

(** C4, amended: a broadcast to a trip with N participants that excludes a
    participant attempts exactly N-1 sends, one to each other member, whether
    or not sends raise; after the call, a member whose send raised and whose
    [user_trip_mapping] entry is this (non-empty) trip id is no longer listed
    by [get_trip_participants], and every other member still is. *)
Theorem broadcast_delivery (net : Network) (message trip_id exclude_user : string)
    (self : ConnectionManager) (members : gmap string WebSocket) :
  trip_connections self !! trip_id = Some members →
  is_Some (members !! exclude_user) →
  let r := broadcast_to_trip net message trip_id (Some exclude_user) self in
  length r.2 = length (get_trip_participants trip_id self) - 1
  ∧ (∀ u ws, mkSend u ws message ∈ r.2
             ↔ members !! u = Some ws ∧ u ≠ exclude_user)
  ∧ (∀ u ws, members !! u = Some ws → u ≠ exclude_user →
             net u ws message = false →
             user_trip_mapping self !! u = Some trip_id → trip_id ≠ "" →
             u ∉ get_trip_participants trip_id r.1)
  ∧ (∀ u ws, members !! u = Some ws →
             u = exclude_user ∨ net u ws message = true →
             u ∈ get_trip_participants trip_id r.1).
Proof.
  intros Hm He r.
  assert (r = (cleanup (filter (failed net message (Some exclude_user))
                          (map_to_list members)).*1 self,
               (λ p, mkSend p.1 p.2 message)
                 <$> filter (attempted net message (Some exclude_user))
                       (map_to_list members))) as ->.
  { subst r. unfold broadcast_to_trip. rewrite Hm.
    rewrite <- broadcast_pass_sent, <- broadcast_pass_disconnected.
    by destruct (broadcast_pass _ _ _ _). }
  cbn [fst snd]. split; [|split; [|split]].
  - rewrite length_fmap, filter_excluded_length by done.
    unfold get_trip_participants. rewrite Hm. simpl.
    by rewrite length_fmap, length_map_to_list.
  - intros u ws. rewrite list_elem_of_fmap. split.
    + intros ([u' ws'] & [= -> ->] & [Ha Hin]%list_elem_of_filter).
      apply elem_of_map_to_list in Hin. split; [done|].
      unfold attempted in Ha. simpl in Ha.
      by apply bool_decide_eq_false in Ha.
    + intros [Hu Hne]. exists (u, ws). split; [done|].
      apply list_elem_of_filter. split.
      * unfold attempted. simpl. by apply bool_decide_eq_false_2.
      * by apply elem_of_map_to_list.
  - intros u ws Hu Hne Hnet Hut Ht. rewrite participants_spec.
    unfold is_member.
    rewrite (cleanup_removes _ _ trip_id u); [by intros [? ?]| |done|done].
    apply list_elem_of_fmap. exists (u, ws). split; [done|].
      apply list_elem_of_filter. split.
      * split; [|done]. simpl. by apply bool_decide_eq_false_2.
      * by apply elem_of_map_to_list.
  - intros u ws Hu Hok. rewrite participants_spec.
    unfold is_member. rewrite cleanup_handle_notin.
    + unfold member_handle. rewrite Hm. simpl. by exists ws.
    + intros ([u' ws'] & Heq & [[Ha Hf] Hin]%list_elem_of_filter)%list_elem_of_fmap.
      simpl in *. subst u'. apply elem_of_map_to_list in Hin.
      assert (ws' = ws) as -> by congruence.
      destruct Hok as [->|Hok]; [|congruence].
      by rewrite bool_decide_eq_true_2 in Ha.
Qed.

Lemma broadcast_delivery_witness :
  let self := run [Connect 1 "A" "u" true; Connect 2 "A" "v" true] init in
  let r := broadcast_to_trip u_is_down "m" "A" (Some "v") self in
  length r.2 = 1 ∧ ("u" ∉ get_trip_participants "A" r.1)
  ∧ ("v" ∈ get_trip_participants "A" r.1).
Proof.
  intros self r.
  destruct (broadcast_delivery u_is_down "m" "A" "v" self
              {["u" := 1; "v" := 2]}) as (Hlen & _ & Hout & Hin).
  - vm_compute. reflexivity.
  - some_by_eval.
  - split; [exact Hlen|]. split.
    + apply (Hout "u" 1); by vm_compute.
    + apply (Hin "v" 2); [by vm_compute|by left].
Defined.

Lemma cleanup_unmaps l s u :
  u ∈ l → user_trip_mapping (cleanup l s) !! u = None.
Proof.
  assert (∀ l s, user_trip_mapping s !! u = None →
                 user_trip_mapping (cleanup l s) !! u = None) as Hgone.
  { clear. intros l. induction l as [|v l IH]; intros s Hs; [done|]. simpl.
    apply IH. rewrite disconnect_mapping. by case_decide. }
  revert s. induction l as [|v l IH]; intros s Hin.
  { by apply elem_of_nil in Hin. }
  simpl. destruct (decide (u = v)) as [<-|Hne].
  - apply Hgone. rewrite disconnect_mapping. by rewrite decide_True.
  - apply IH. apply elem_of_cons in Hin as [?|?]; done.
Qed.

Lemma broadcast_failed_send net m t e s x :
  x ∈ (broadcast_to_trip net m t e s).2 →
  net (send_user x) (send_socket x) m = false →
  ∃ l, (broadcast_to_trip net m t e s).1 = cleanup l s ∧ send_user x ∈ l.
Proof.
  unfold broadcast_to_trip.
  destruct (trip_connections s !! t) as [members|];
    [|by intros ?%elem_of_nil].
  pose proof (broadcast_pass_sent net m e (map_to_list members)) as Hs.
  pose proof (broadcast_pass_disconnected net m e (map_to_list members)) as Hd.
  destruct (broadcast_pass net m e (map_to_list members)) as [sent dis].
  simpl in *. subst sent dis.
  intros ([u ws] & -> & [Ha Hin]%list_elem_of_filter)%list_elem_of_fmap Hf.
  simpl in *. eexists. split; [reflexivity|].
  apply list_elem_of_fmap. exists (u, ws). split; [done|].
  apply list_elem_of_filter. split; [|done]. split; done.
Qed.

(** C9: when a user registered under trip [A] connects to a different trip
    [B], the old handle stays in the member map of [A] while
    [user_trip_mapping] names [B]; a later disconnect of the user leaves every
    member map other than that of [B] as it was (and removes the user from
    [B] when [B] is non-empty as a string); the disconnect performed by a
    broadcast one of whose sends to the user raises (on the stale handle in
    [A], for instance) likewise removes the user from [B] and from
    [user_trip_mapping] and leaves the handle in [A]; and after any further
    operations that do not connect the user to [A] again (disconnects,
    broadcasts with their failed-send cleanup, other connects) the stale
    handle is still in the member map of [A]. *)
Theorem stale_membership_persists (self : ConnectionManager) (A B u : string)
    (h h' : WebSocket) :
  A ≠ B →
  member_handle A u self = Some h →
  user_trip_mapping self !! u = Some A →
  let s1 := connect h' B u true self in
  member_handle A u s1 = Some h
  ∧ user_trip_mapping s1 !! u = Some B
  ∧ (∀ t, t ≠ B → trip_connections (disconnect u s1) !! t
                  = trip_connections s1 !! t)
  ∧ (B ≠ "" → member_handle B u (disconnect u s1) = None)
  ∧ (∀ ops, no_reconnect A u ops = true →
            member_handle A u (run ops s1) = Some h
            ∧ u ∈ get_trip_participants A (run ops s1))
  ∧ (∀ net message trip_id exclude_user x,
       B ≠ "" →
       let r := broadcast_to_trip net message trip_id exclude_user s1 in
       x ∈ r.2 → send_user x = u →
       net u (send_socket x) message = false →
       member_handle B u s1 = Some h'
       ∧ member_handle B u r.1 = None
       ∧ user_trip_mapping r.1 !! u = None
       ∧ member_handle A u r.1 = Some h).
Proof.
  intros HAB Hh Hut s1.
  assert (stale A u h s1) as Hstale.
  { split.
    - unfold s1. rewrite connect_handle. rewrite decide_False; [done|].
      intros [? _]. done.
    - unfold s1. rewrite connect_mapping, decide_True by done. congruence. }
  assert (user_trip_mapping s1 !! u = Some B) as HuB.
  { unfold s1. by rewrite connect_mapping, decide_True. }
  split; [apply Hstale|]. split; [done|]. split; [|split; [|split]].
  - intros t Ht. unfold disconnect. rewrite HuB.
    destruct (truthy B); [|done].
    destruct (trip_connections s1 !! B) as [m|]; [|done].
    destruct (dict_empty (delete u m)); simpl.
    + by apply lookup_delete_ne.
    + by apply lookup_insert_ne.
  - intros HB. rewrite disconnect_handle. by rewrite decide_True.
  - intros ops Hops.
    destruct (run_stale A u h ops s1 Hops Hstale) as [Hrun _].
    split; [done|]. apply participants_spec. unfold is_member.
    by rewrite Hrun.
  - intros net message trip_id exclude_user x HB r Hx Hxu Hf.
    split.
    { unfold s1. rewrite connect_handle. by rewrite decide_True. }
    subst r. rewrite <- Hxu in Hf.
    destruct (broadcast_failed_send _ _ _ _ _ _ Hx Hf) as [l [-> Hl]].
    rewrite Hxu in Hl. split; [|split].
    + by apply (cleanup_removes l s1 B u).
    + by apply cleanup_unmaps.
    + by apply (cleanup_stale A u h l s1).
Qed.

Lemma stale_membership_persists_witness :
  let self := run [Connect 1 "A" "u" true; Connect 2 "A" "v" true] init in
  let s1 := connect 3 "B" "u" true self in
  let r := broadcast_to_trip u_is_down "m" "A" None s1 in
  member_handle "A" "u"
    (run [Disconnect "u"; Broadcast u_is_down "m" "A" None; Disconnect "u"] s1)
  = Some 1
  ∧ member_handle "B" "u" (disconnect "u" s1) = None
  ∧ mkSend "u" 1 "m" ∈ r.2
  ∧ member_handle "B" "u" s1 = Some 3
  ∧ member_handle "B" "u" r.1 = None
  ∧ user_trip_mapping r.1 !! "u" = None
  ∧ member_handle "A" "u" r.1 = Some 1.
Proof.
  intros self s1 r.
  destruct (stale_membership_persists self "A" "B" "u" 1 3)
    as (_ & _ & _ & HB & Hrun & Hfail).
  - done.
  - vm_compute. reflexivity.
  - vm_compute. reflexivity.
  - assert (mkSend "u" 1 "m" ∈ r.2) as Hx by by_eval.
    split.
    { apply (Hrun [Disconnect "u"; Broadcast u_is_down "m" "A" None;
                   Disconnect "u"]). reflexivity. }
    split; [apply HB; done|]. split; [exact Hx|].
    apply (Hfail u_is_down "m" "A" None (mkSend "u" 1 "m"));
      [done|exact Hx|reflexivity|reflexivity].
Defined.

(** C10: a broadcast to a trip id that is not a key of [trip_connections]
    returns without attempting a send and leaves both dictionaries of the
    registry as they were; the function has no raising outcome. *)
Theorem broadcast_unknown_trip (net : Network) (message trip_id : string)
    (exclude_user : option string) (self : ConnectionManager) :
  trip_connections self !! trip_id = None →
  broadcast_to_trip net message trip_id exclude_user self = (self, []).
Proof. intros H. unfold broadcast_to_trip. by rewrite H. Qed.

Lemma broadcast_unknown_trip_witness :
  trip_connections two_trips !! "C" = None
  ∧ broadcast_to_trip u_is_down "m" "C" (Some "u") two_trips = (two_trips, []).
Proof.
  split; [reflexivity|].
  apply (broadcast_unknown_trip u_is_down "m" "C" (Some "u") two_trips).
  reflexivity.
Defined.

(** ** Further properties of [disconnect] *)

(** [trip_connections] after [disconnect], key by key. *)
Lemma disconnect_trips u s t :
  trip_connections (disconnect u s) !! t =
  if decide (user_trip_mapping s !! u = Some t ∧ t ≠ "")
  then m ← trip_connections s !! t;
       if decide (delete u m = ∅) then None else Some (delete u m)
  else trip_connections s !! t.
Proof.
  unfold disconnect.
  destruct (user_trip_mapping s !! u) as [t0|] eqn:E; cycle 1.
  { rewrite decide_False; [done|]. by intros [? _]. }
  destruct (truthy t0) eqn:Ht0; cycle 1.
  { simpl. rewrite decide_False; [done|].
    intros [[= ->] Hne]. apply truthy_spec in Hne. congruence. }
  apply truthy_spec in Ht0.
  destruct (trip_connections s !! t0) as [m|] eqn:Em; cycle 1.
  { simpl. case_decide as H; [|done]. destruct H as [[= ->] _].
    by rewrite Em. }
  destruct (dict_empty (delete u m)) eqn:Hd; simpl.
  - apply dict_empty_spec in Hd.
    destruct (decide (t0 = t)) as [->|Hne].
    + rewrite lookup_delete_eq, decide_True by done. rewrite Em. simpl.
      by rewrite decide_True.
    + rewrite lookup_delete_ne by done. rewrite decide_False; [done|].
      intros [[= ?] _]. done.
  - assert (delete u m ≠ ∅) as Hne'.
    { intros H%dict_empty_spec. congruence. }
    destruct (decide (t0 = t)) as [->|Hne].
    + rewrite lookup_insert_eq, decide_True by done. rewrite Em. simpl.
      by rewrite decide_False.
    + rewrite lookup_insert_ne by done. rewrite decide_False; [done|].
      intros [[= ?] _]. done.
Qed.

Lemma manager_eq s1 s2 :
  (∀ t, trip_connections s1 !! t = trip_connections s2 !! t) →
  (∀ u, user_trip_mapping s1 !! u = user_trip_mapping s2 !! u) →
  s1 = s2.
Proof.
  destruct s1 as [tc1 ut1], s2 as [tc2 ut2]. simpl. intros Ht Hu.
  f_equal; by apply map_eq.
Qed.

(** [disconnect] is idempotent: a second call for the same user changes
    nothing, whatever the registry. *)
Theorem disconnect_idempotent (u : string) (s : ConnectionManager) :
  disconnect u (disconnect u s) = disconnect u s.
Proof.
  assert (user_trip_mapping (disconnect u s) !! u = None) as H.
  { rewrite disconnect_mapping. by rewrite decide_True. }
  unfold disconnect at 1. by rewrite H.
Qed.

(** Two [disconnect] calls commute. *)
Lemma disconnect_comm u v s :
  disconnect u (disconnect v s) = disconnect v (disconnect u s).
Proof.
  destruct (decide (u = v)) as [->|Huv]; [done|].
  apply manager_eq.
  - intros t. rewrite !disconnect_trips, !disconnect_mapping.
    rewrite (decide_False (P:=(u = v))), (decide_False (P:=(v = u))) by done.
    destruct (decide (user_trip_mapping s !! u = Some t ∧ t ≠ "")) as [Hu|Hu];
      destruct (decide (user_trip_mapping s !! v = Some t ∧ t ≠ "")) as [Hv|Hv];
      try done.
    destruct (trip_connections s !! t) as [m|]; simpl; [|done].
    destruct (decide (delete v m = ∅)) as [Ev|Ev];
      destruct (decide (delete u m = ∅)) as [Eu|Eu]; simpl; try done.
    + rewrite decide_True; [done|].
      by rewrite delete_delete, Ev, delete_empty.
    + rewrite decide_True; [done|].
      by rewrite delete_delete, Eu, delete_empty.
    + rewrite (delete_delete m u v). by destruct (decide _).
  - intros w. rewrite !disconnect_mapping.
    by repeat case_decide.
Qed.

(** The cleanup of a broadcast does not depend on the order in which the
    failed users were collected: disconnecting the same users in any order
    gives the same registry. *)
Theorem cleanup_permutation (l1 l2 : list string) (s : ConnectionManager) :
  l1 ≡ₚ l2 → cleanup l1 s = cleanup l2 s.
Proof.
  intros Hp. revert s.
  induction Hp as [|x l1 l2 _ IH|x y l|l1 l2 l3 _ IH1 _ IH2]; intros s; simpl.
  - done.
  - apply IH.
  - by rewrite disconnect_comm.
  - by rewrite IH1.
Qed.

Lemma cleanup_permutation_witness :
  cleanup ["u"; "v"] two_trips = cleanup ["v"; "u"] two_trips.
Proof.
  apply (cleanup_permutation ["u"; "v"] ["v"; "u"] two_trips).
  apply perm_swap.
Defined.

(** ** Further properties of [connect], [disconnect] and the listing *)

Lemma connect_trips ws t u s t' :
  trip_connections (connect ws t u true s) !! t' =
  if decide (t' = t)
  then Some (<[u := ws]> (default ∅ (trip_connections s !! t)))
  else trip_connections s !! t'.
Proof.
  simpl. case_decide as H.
  - subst t'. rewrite lookup_alter_eq.
    destruct (trip_connections s !! t) as [m|] eqn:E; simpl.
    + by rewrite E.
    + by rewrite lookup_insert_eq.
  - rewrite lookup_alter_ne by done.
    destruct (trip_connections s !! t); [done|].
    by rewrite lookup_insert_ne.
Qed.

(** A user who joins and leaves again leaves no trace: for a user that is not
    registered, a non-empty trip id and a registry without empty member maps,
    [disconnect] after [connect] gives back the registry as it was. *)
Theorem connect_disconnect_roundtrip (ws : WebSocket) (t u : string)
    (s : ConnectionManager) :
  t ≠ "" →
  user_trip_mapping s !! u = None →
  member_handle t u s = None →
  trip_connections s !! t ≠ Some ∅ →
  disconnect u (connect ws t u true s) = s.
Proof.
  intros Ht Hu Hm Hp.
  assert (user_trip_mapping (connect ws t u true s) !! u = Some t) as Hc.
  { by rewrite connect_mapping, decide_True. }
  apply manager_eq.
  - intros t'. rewrite disconnect_trips, Hc, connect_trips.
    destruct (decide (t' = t)) as [->|Hne].
    + rewrite decide_True by done. simpl.
      unfold member_handle in Hm.
      destruct (trip_connections s !! t) as [m|] eqn:E; simpl in *.
      * rewrite delete_insert_id by done.
        rewrite decide_False; [done|]. intros ->. done.
      * rewrite delete_insert_id by apply lookup_empty.
        by rewrite decide_True.
    + rewrite decide_False; [done|]. intros [[= ?] _]. done.
  - intros v. rewrite disconnect_mapping, connect_mapping.
    case_decide; [by subst|done].
Qed.

Lemma connect_disconnect_roundtrip_witness :
  disconnect "w" (connect 7 "A" "w" true two_trips) = two_trips.
Proof.
  apply (connect_disconnect_roundtrip 7 "A" "w" two_trips).
  - done.
  - reflexivity.
  - reflexivity.
  - vm_compute. discriminate.
Defined.

(** After a successful [connect] the listing of the trip is the old listing
    with the user added (once), the listings of the other trips are
    unchanged, and the count grows by one exactly when the user was not yet a
    member of that trip. *)
Theorem connect_participants (ws : WebSocket) (t u : string)
    (s : ConnectionManager) :
  let s' := connect ws t u true s in
  (∀ v, v ∈ get_trip_participants t s'
        ↔ v = u ∨ v ∈ get_trip_participants t s)
  ∧ (∀ t', t' ≠ t → get_trip_participants t' s' = get_trip_participants t' s)
  ∧ length (get_trip_participants t s')
    = (if decide (u ∈ get_trip_participants t s)
       then length (get_trip_participants t s)
       else S (length (get_trip_participants t s)))
  ∧ member_handle t u s' = Some ws.
Proof.
  intros s'. split; [|split; [|split]].
  - intros v. rewrite !participants_spec. unfold is_member, s'.
    rewrite connect_handle. case_decide as H.
    + destruct H as [_ ->]. split; [by left|by eexists].
    + split; [by right|]. intros [->|?]; [|done]. exfalso. by apply H.
  - intros t' Hne. unfold get_trip_participants, s'.
    by rewrite connect_trips, decide_False.
  - unfold get_trip_participants at 1, s'.
    rewrite connect_trips, decide_True by done. simpl.
    rewrite length_fmap, length_map_to_list.
    case_decide as Hin.
    + apply participants_spec in Hin as [h Hh].
      unfold member_handle in Hh. unfold get_trip_participants.
      destruct (trip_connections s !! t) as [m|]; simpl in *; [|done].
      rewrite length_fmap, length_map_to_list.
      by rewrite map_size_insert_Some by eauto.
    + assert (default ∅ (trip_connections s !! t) !! u = None) as Hn.
      { destruct (default ∅ (trip_connections s !! t) !! u) as [h|] eqn:E;
          [|done].
        exfalso. apply Hin, participants_spec. exists h.
        unfold member_handle.
        destruct (trip_connections s !! t); simpl in *; [done|].
        by rewrite lookup_empty in E. }
      rewrite map_size_insert_None by done.
      unfold get_trip_participants.
      by rewrite length_fmap, length_map_to_list.
  - unfold s'. rewrite connect_handle. by rewrite decide_True.
Qed.

(** [disconnect] of a user registered under a (non-empty) trip id removes
    exactly that user from the listing of the trip, and the trip stays a key
    of [trip_connections] iff another member is left. *)
Theorem disconnect_participants (t u : string) (s : ConnectionManager) :
  user_trip_mapping s !! u = Some t →
  t ≠ "" →
  let s' := disconnect u s in
  (∀ v, v ∈ get_trip_participants t s'
        ↔ v ≠ u ∧ v ∈ get_trip_participants t s)
  ∧ (is_Some (trip_connections s' !! t)
     ↔ ∃ v, v ≠ u ∧ v ∈ get_trip_participants t s)
  ∧ user_trip_mapping s' !! u = None.
Proof.
  intros Hu Ht s'. split; [|split].
  - intros v. rewrite !participants_spec. unfold is_member, s'.
    rewrite disconnect_handle. case_decide as H.
    + destruct H as [-> _]. split; [by intros [? ?]|by intros [? _]].
    + split; [|by intros [_ ?]]. intros Hv. split; [|done].
      intros ->. by apply H.
  - unfold s'. rewrite disconnect_trips, decide_True by done.
    setoid_rewrite participants_spec. unfold is_member, member_handle.
    destruct (trip_connections s !! t) as [m|]; simpl.
    + case_decide as He.
      * split; [by intros [? ?]|]. intros (v & Hv & [h Hh]).
        rewrite <- (lookup_delete_ne m u v) in Hh by done.
        by rewrite He, lookup_empty in Hh.
      * split; [|by eexists]. intros _.
        destruct (map_choose _ He) as (v & h & Hv).
        apply lookup_delete_Some in Hv as [Hne Hv]. by exists v; eauto.
    + split; [by intros [? ?]|]. by intros (v & _ & [h Hh]).
  - unfold s'. by rewrite disconnect_mapping, decide_True.
Qed.

Lemma disconnect_participants_witness :
  let s := run [Connect 1 "A" "u" true; Connect 2 "A" "v" true] init in
  ("v" ∈ get_trip_participants "A" (disconnect "u" s))
  ∧ trip_connections (disconnect "v" (disconnect "u" s)) !! "A" = None.
Proof.
  intros s.
  destruct (disconnect_participants "A" "u" s) as (Hin & _ & _);
    [reflexivity|done|].
  split.
  - apply Hin. split; [done|]. by_eval.
  - reflexivity.
Defined.

(** ** Further properties of [broadcast_to_trip] and
       [send_personal_message] *)

Lemma broadcast_unfold net m t e s members :
  trip_connections s !! t = Some members →
  broadcast_to_trip net m t e s
  = (cleanup (filter (failed net m e) (map_to_list members)).*1 s,
     (λ p, mkSend p.1 p.2 m) <$> filter (attempted net m e) (map_to_list members)).
Proof.
  intros Hm. unfold broadcast_to_trip. rewrite Hm.
  rewrite <- broadcast_pass_sent, <- broadcast_pass_disconnected.
  by destruct (broadcast_pass _ _ _ _).
Qed.

Lemma cleanup_handle_mono l s t v h :
  member_handle t v (cleanup l s) = Some h → member_handle t v s = Some h.
Proof.
  revert s. induction l as [|u l IH]; intros s; [done|]. simpl.
  intros H%IH. rewrite disconnect_handle in H. by case_decide.
Qed.

Lemma cleanup_mapping_mono l s v t :
  user_trip_mapping (cleanup l s) !! v = Some t →
  user_trip_mapping s !! v = Some t.
Proof.
  revert s. induction l as [|u l IH]; intros s; [done|]. simpl.
  intros H%IH. rewrite disconnect_mapping in H. by case_decide.
Qed.

Lemma broadcast_sent_elem net m t e s x :
  x ∈ (broadcast_to_trip net m t e s).2 →
  member_handle t (send_user x) s = Some (send_socket x)
  ∧ send_message x = m ∧ e ≠ Some (send_user x).
Proof.
  destruct (trip_connections s !! t) as [members|] eqn:Hm; cycle 1.
  { unfold broadcast_to_trip. rewrite Hm. by intros ?%elem_of_nil. }
  rewrite (broadcast_unfold _ _ _ _ _ members) by done. cbn [snd].
  intros ([u ws] & -> & [Ha Hin]%list_elem_of_filter)%list_elem_of_fmap.
  apply elem_of_map_to_list in Hin. simpl.
  unfold member_handle. rewrite Hm. simpl. split; [done|]. split; [done|].
  unfold attempted in Ha. simpl in Ha. destruct e as [e|]; [|done].
  simpl in Ha. apply bool_decide_eq_false in Ha. congruence.
Qed.

Lemma broadcast_handle_mono net m t e s t' v h :
  member_handle t' v (broadcast_to_trip net m t e s).1 = Some h →
  member_handle t' v s = Some h.
Proof.
  destruct (broadcast_state net m t e s) as [l ->]. apply cleanup_handle_mono.
Qed.

Lemma broadcast_mapping_mono net m t e s v t' :
  user_trip_mapping (broadcast_to_trip net m t e s).1 !! v = Some t' →
  user_trip_mapping s !! v = Some t'.
Proof.
  destruct (broadcast_state net m t e s) as [l ->]. apply cleanup_mapping_mono.
Qed.

(** Who a broadcast sends to: exactly once to each member of the trip other
    than the excluded user, on the handle registered for that member and with
    the given message; in particular never to the excluded user and never to
    a user of another trip.  With no excluded user, or one who is not a
    member, every member is sent to. *)
Theorem broadcast_recipients (net : Network) (message trip_id : string)
    (exclude_user : option string) (self : ConnectionManager) :
  let r := broadcast_to_trip net message trip_id exclude_user self in
  (∀ x, x ∈ r.2
        ↔ member_handle trip_id (send_user x) self = Some (send_socket x)
          ∧ send_message x = message
          ∧ exclude_user ≠ Some (send_user x))
  ∧ NoDup (send_user <$> r.2)
  ∧ length r.2
    = match exclude_user with
      | Some e =>
          if decide (e ∈ get_trip_participants trip_id self)
          then length (get_trip_participants trip_id self) - 1
          else length (get_trip_participants trip_id self)
      | None => length (get_trip_participants trip_id self)
      end.
Proof.
  intros r. subst r.
  destruct (trip_connections self !! trip_id) as [members|] eqn:Hm; cycle 1.
  { unfold broadcast_to_trip, member_handle, get_trip_participants.
    rewrite Hm. simpl. split; [|split].
    - intros x. split; [by intros ?%elem_of_nil|by intros [? _]].
    - constructor.
    - destruct exclude_user; [by case_decide|done]. }
  rewrite (broadcast_unfold _ _ _ _ _ members) by done. cbn [fst snd].
  assert (∀ u, is_excluded u exclude_user = false ↔ exclude_user ≠ Some u)
    as Hex.
  { intros u. destruct exclude_user as [e|]; simpl; [|done].
    rewrite bool_decide_eq_false. split; intros H; congruence. }
  split; [|split].
  - intros [u ws m]. simpl. rewrite list_elem_of_fmap.
    unfold member_handle. rewrite Hm. simpl. split.
    + intros ([u' ws'] & [= -> -> ->] & [Ha Hin]%list_elem_of_filter).
      apply elem_of_map_to_list in Hin. split; [done|]. split; [done|].
      by apply Hex.
    + intros (Hu & -> & Hne). exists (u, ws). split; [done|].
      apply list_elem_of_filter. split; [by apply Hex|].
      by apply elem_of_map_to_list.
  - rewrite <- list_fmap_compose.
    apply (NoDup_fmap_2_strong fst).
    + intros [u1 w1] [u2 w2] [_ H1]%list_elem_of_filter
        [_ H2]%list_elem_of_filter Heq. simpl in Heq. subst u2.
      apply elem_of_map_to_list in H1, H2. congruence.
    + apply NoDup_filter, NoDup_map_to_list.
  - rewrite length_fmap. unfold get_trip_participants. rewrite Hm. simpl.
    rewrite !length_fmap, length_map_to_list.
    destruct exclude_user as [e|].
    + case_decide as Hin.
      * apply list_elem_of_fmap in Hin as ([e' w] & -> & Hin).
        apply elem_of_map_to_list in Hin.
        rewrite filter_excluded_length by eauto. done.
      * rewrite filter_all; [by rewrite length_map_to_list|].
        apply Forall_forall. intros [u w] Hu. apply Hex. intros [= ->].
        apply Hin, list_elem_of_fmap. by exists (u, w).
    + rewrite filter_all; [by rewrite length_map_to_list|].
      by apply Forall_forall.
Qed.

Lemma filter_none {A} (P : A → Prop) `{!∀ x, Decision (P x)} (l : list A) :
  Forall (λ x, ¬ P x) l → filter P l = [].
Proof.
  induction 1 as [|x l Hx _ IH]; [done|].
  by rewrite filter_cons_False.
Qed.

(** What a broadcast does to the registry: it registers nobody, it removes
    nobody whose send did not raise, and when every attempted send returns
    the registry is unchanged. *)
Theorem broadcast_registry_effect (net : Network) (message trip_id : string)
    (exclude_user : option string) (self : ConnectionManager) :
  let r := broadcast_to_trip net message trip_id exclude_user self in
  (∀ t v h, member_handle t v r.1 = Some h → member_handle t v self = Some h)
  ∧ (∀ v t, user_trip_mapping r.1 !! v = Some t →
            user_trip_mapping self !! v = Some t)
  ∧ (∀ t v h, member_handle t v self = Some h →
       member_handle t v r.1 = Some h
       ∨ ∃ ws, mkSend v ws message ∈ r.2 ∧ net v ws message = false)
  ∧ ((∀ x, x ∈ r.2 → net (send_user x) (send_socket x) message = true) →
     r.1 = self).
Proof.
  intros r. subst r.
  destruct (trip_connections self !! trip_id) as [members|] eqn:Hm; cycle 1.
  { unfold broadcast_to_trip. rewrite Hm. simpl. eauto 10. }
  rewrite (broadcast_unfold _ _ _ _ _ members) by done. cbn [fst snd].
  split; [|split; [|split]].
  - intros t v h. apply cleanup_handle_mono.
  - intros v t. apply cleanup_mapping_mono.
  - intros t v h Hh.
    destruct (decide (v ∈ (filter (failed net message exclude_user)
                             (map_to_list members)).*1)) as [Hin|Hin].
    + right. apply list_elem_of_fmap in Hin
        as ([v' ws] & -> & [[Ha Hf] Hin]%list_elem_of_filter).
      simpl in *. exists ws. split; [|done].
      apply list_elem_of_fmap. exists (v', ws). split; [done|].
      by apply list_elem_of_filter.
    + left. by rewrite cleanup_handle_notin.
  - intros Hall.
    assert (filter (failed net message exclude_user) (map_to_list members) = [])
      as ->; [|done].
    apply filter_none, Forall_forall.
    intros [u ws] Hin [Ha Hf]. simpl in *.
    assert (net u ws message = true) as Ht; [|congruence].
    apply (Hall (mkSend u ws message)).
    apply list_elem_of_fmap. exists (u, ws). split; [done|].
    by apply list_elem_of_filter.
Qed.

Lemma default_lookup (o : option (gmap string WebSocket)) u :
  default ∅ o !! u = o ≫= lookup u.
Proof. destruct o; simpl; [done|apply lookup_empty]. Qed.

(** [send_personal_message] answers [true] exactly when the user is
    registered under a non-empty trip id, has a handle in that trip and the
    send returns, and then the registry is unchanged; it sends at most one
    message, only to that user; a send that raises unregisters the user. *)
Theorem send_personal_message_spec (net : Network) (message user_id : string)
    (self : ConnectionManager) :
  let r := send_personal_message net message user_id self in
  (r.2 = true
   ↔ ∃ t ws, user_trip_mapping self !! user_id = Some t ∧ t ≠ ""
             ∧ member_handle t user_id self = Some ws
             ∧ net user_id ws message = true)
  ∧ (r.2 = true → r.1.1 = self)
  ∧ (r.1.2 = [] → r.1.1 = self)
  ∧ (∀ x, x ∈ r.1.2 → r.1.2 = [x] ∧ send_user x = user_id
                      ∧ send_message x = message)
  ∧ (r.1.2 ≠ [] → r.2 = false →
     user_trip_mapping r.1.1 !! user_id = None).
Proof.
  intros r. subst r. unfold send_personal_message.
  destruct (user_trip_mapping self !! user_id) as [t|] eqn:Hu; cycle 1.
  { simpl. split; [|split; [|split; [|split]]]; try done.
    - split; [done|]. by intros (? & ? & ? & _).
    - by intros ? ?%elem_of_nil. }
  destruct (truthy t) eqn:Ht; cycle 1.
  { simpl. split; [|split; [|split; [|split]]]; try done.
    - split; [done|].
      intros (? & ? & [= <-] & Hne%truthy_spec & _). congruence.
    - by intros ? ?%elem_of_nil. }
  apply truthy_spec in Ht. rewrite default_lookup.
  fold (member_handle t user_id self).
  destruct (member_handle t user_id self) as [ws|] eqn:Hh; cycle 1.
  { simpl. split; [|split; [|split; [|split]]]; try done.
    - split; [done|]. intros (? & ? & [= <-] & _ & ? & _). congruence.
    - by intros ? ?%elem_of_nil. }
  destruct (net user_id ws message) eqn:Hn; simpl;
    (split; [|split; [|split; [|split]]]); try done.
  - split; [|done]. intros _. by exists t, ws.
  - intros x Hx. apply list_elem_of_singleton in Hx. by subst.
  - split; [done|]. intros (? & ? & [= <-] & _ & ? & ?). congruence.
  - intros x Hx. apply list_elem_of_singleton in Hx. by subst.
  - intros _ _. by rewrite disconnect_mapping, decide_True.
Qed.

End RegistryProps.

(* ===================================================================== *)
(** * Properties of the alert pipeline                                    *)
(* ===================================================================== *)

Module AlertsProps.
Import Alerts.

(** ** Stripping and whitespace *)

Lemma lstrip_whitespace s : whitespace_only s = true → lstrip s = "".
Proof.
  induction s as [|c s IH]; [done|]. simpl.
  intros [Hc Hs]%andb_true_iff. rewrite Hc. by apply IH.
Qed.

Lemma strip_whitespace s : whitespace_only s = true → strip s = "".
Proof. intros H. unfold strip. by rewrite lstrip_whitespace. Qed.

Lemma rstrip_empty s : rstrip s = "" → whitespace_only s = true.
Proof.
  induction s as [|c s IH]; [done|]. simpl.
  destruct (rstrip s); [|done].
  destruct (isspace c); [|done]. intros _. by apply IH.
Qed.

Lemma lstrip_whitespace_inv s :
  whitespace_only (lstrip s) = true → whitespace_only s = true.
Proof.
  induction s as [|c s IH]; [done|]. simpl.
  destruct (isspace c) eqn:Hc; simpl.
  - apply IH.
  - by rewrite Hc.
Qed.

Lemma strip_empty_iff s : strip s = "" ↔ whitespace_only s = true.
Proof.
  split.
  - intros H. by apply lstrip_whitespace_inv, rstrip_empty.
  - apply strip_whitespace.
Qed.

Lemma truthy_whitespace_strip s :
  whitespace_only s = true → (if truthy s then strip s else "") = "".
Proof. intros H. destruct (truthy s); [by apply strip_whitespace|done]. Qed.

(** ** The analysis guard *)

Lemma analysis_guard transcript :
  negb (truthy transcript) || String.eqb (strip transcript) ""
  = whitespace_only transcript.
Proof.
  destruct (whitespace_only transcript) eqn:H.
  - rewrite strip_whitespace by done. apply orb_true_r.
  - destruct transcript as [|c t]; [done|]. simpl negb. simpl orb.
    apply String.eqb_neq. intros Hs%strip_empty_iff. congruence.
Qed.

Lemma analyze_skips w transcript st :
  whitespace_only transcript = true →
  analyze_emergency_transcript w transcript st = (st, Ok unclear).
Proof.
  intros H. unfold analyze_emergency_transcript.
  by rewrite analysis_guard, H.
Qed.

Lemma analyze_calls w transcript st :
  whitespace_only transcript = false →
  ∃ r, analyze_emergency_transcript w transcript st
       = (mkStore (trace st ++ [ChatCompletion (_create_analysis_prompt transcript)])
                  (alerts st), r).
Proof.
  intros H. unfold analyze_emergency_transcript.
  rewrite analysis_guard, H. cbn.
  destruct (chat w _) as [[|[c|] l]| |e]; eauto.
Qed.

(** ** Properties of the pipeline *)

(** Unfold the pipeline down to the answers of the world. *)
Ltac unfold_pipeline :=
  unfold invoke, process_emergency_alert, _get_user_emergency_contacts,
    transcribe_audio, send_emergency_alert, send_fallback_alert,
    add_and_commit, try_except, emit, insert_row, raise,
    mbind, M_bind, mret, M_ret.

(** Case analysis on every answer of the world the goal still depends on. *)
Ltac world_cases :=
  repeat (cbn;
    match goal with
    | |- context [match smtp_template ?w with _ => _ end] =>
        destruct (smtp_template w) eqn:?
    | |- context [match smtp_plain ?w with _ => _ end] =>
        destruct (smtp_plain w) eqn:?
    | |- context [match db_commit ?w ?a with _ => _ end] =>
        destruct (db_commit w a) eqn:?
    | |- context [match chat ?w ?p with _ => _ end] =>
        destruct (chat w p) as [[|[?|] ?]| |?] eqn:?
    | |- context [match whisper ?w with _ => _ end] =>
        destruct (whisper w) eqn:?
    end).

(** The commit of the fallback row is in the trace and raised. *)
Ltac fallback_commit_failed :=
  match goal with
  | H : db_commit ?w (fallback_alert ?u ?la ?lo ?em ?e) = Some _ |- _ =>
      exists (fallback_alert u la lo em e);
      split; [ repeat first [ by apply list_elem_of_here
                            | apply list_elem_of_further ]
             | split; [reflexivity | rewrite H; eauto] ]
  end.

(** C5: with an empty contact list the call raises the no-contacts error
    right after reading the contacts: no transcription, analysis or mail call
    is made and no alert row is committed. *)
Theorem no_contacts_fails_immediately (w : World) (user : User)
    (audio_data : bytes) (filename : string) (latitude longitude : float)
    (timestamp : string) (st : Store) :
  contacts_rows w = Ok [] →
  process_emergency_alert w user audio_data filename latitude longitude
    timestamp st
  = (mkStore (trace st ++ [SelectContacts (id user)]) (alerts st),
     Raise (AlertProcessingError "No emergency contacts configured")).
Proof. intros H. unfold_pipeline. cbn. by rewrite H. Qed.

Lemma no_contacts_fails_immediately_witness :
  contacts_rows w_no_contacts = Ok []
  ∧ process_emergency_alert w_no_contacts alice [] "a.wav" here there "t0"
      empty_store
    = (mkStore [SelectContacts "user-1"] [],
       Raise (AlertProcessingError "No emergency contacts configured")).
Proof.
  split; [reflexivity|].
  apply (no_contacts_fails_immediately w_no_contacts alice [] "a.wav" here
           there "t0" empty_store).
  reflexivity.
Defined.

(** C6: when the transcriber raises, the only notification call of the
    invocation is the basic one (never the rich one), and an alert row that
    gets committed has status fallback, an empty transcript and the
    description of the transcription error as error detail; when the basic
    mail and the commit go through, that row is committed and the outcome is
    the fallback one. *)
Theorem transcriber_failure_falls_back (w : World) (user : User)
    (audio_data : bytes) (filename : string) (latitude longitude : float)
    (timestamp : string) (c : EmergencyContact) (cs : list EmergencyContact)
    (e : Exception) :
  contacts_rows w = Ok (c :: cs) →
  whisper_error (whisper w) = Some e →
  let emails := contact_email <$> c :: cs in
  let r := invoke w user audio_data filename latitude longitude timestamp in
  notifications r.1
  = [SendBasic emails (full_name user) latitude longitude timestamp]
  ∧ (∀ a, a ∈ alerts r.1 →
          processing_status a = "fallback" ∧ transcript a = ""
          ∧ error_details a = Some (str e))
  ∧ (smtp_plain w = None →
     db_commit w (fallback_alert user latitude longitude emails e) = None →
     alerts r.1 = [fallback_alert user latitude longitude emails e]
     ∧ ∃ resp, r.2 = Ok resp ∧ status resp = "fallback"
               ∧ error resp = Some (str e)).
Proof.
  intros Hc He emails r. subst r. unfold_pipeline. cbn. rewrite Hc.
  destruct (whisper w) as [resp| |m] eqn:Hw; simpl in He; [done|..];
    injection He as <-; world_cases; cbn;
    (split; [done|]); (split; [|intros; try done; eauto 10]);
    intros a Ha; try (by apply elem_of_nil in Ha);
    apply list_elem_of_singleton in Ha; by subst a.
Qed.

Lemma transcriber_failure_falls_back_witness :
  let r := invoke w_whisper_down alice [] "a.wav" here there "t0" in
  notifications r.1 = [SendBasic ["bob@example.com"] "Alice" here there "t0"]
  ∧ alerts r.1
    = [mkAlert "user-1" here there "" "AI processing unavailable" 1 "fallback"
         (Some "Audio transcription timed out")].
Proof.
  intros r.
  destruct (transcriber_failure_falls_back w_whisper_down alice [] "a.wav"
              here there "t0" bob []
              (TranscriptionError "Audio transcription timed out"))
    as (Hn & _ & Hok).
  - reflexivity.
  - reflexivity.
  - split; [exact Hn|].
    destruct Hok as [Ha _]; [reflexivity|reflexivity|exact Ha].
Defined.

(** C3, counterexample: Whisper times out, the basic mail goes through and
    the commit of the fallback row raises.  The call raises a processing
    failure and persists nothing although the fallback notification did not
    throw. *)
Lemma catastrophic_counterexample :
  ¬ catastrophic_claim w_whisper_and_db_down
      (invoke w_whisper_and_db_down alice [] "a.wav" here there "t0").
Proof.
  intros [[_ H] _].
  destruct H as [_ [x Hx]]; [|discriminate Hx].
  split; [reflexivity|]. eexists. reflexivity.
Qed.

(** C3, amended: with a non-empty contact list, (1) when the fallback
    notification is attempted and throws, no alert row is persisted and the
    call raises a processing failure; (2) whenever the call raises, the error
    is a processing failure, no row is persisted, and the fallback
    notification was attempted and either it or the commit of the fallback
    row threw; (3) whenever the call returns, exactly one alert row is
    persisted and its status is the one returned. *)
Theorem catastrophic_path (w : World) (user : User) (audio_data : bytes)
    (filename : string) (latitude longitude : float) (timestamp : string)
    (c : EmergencyContact) (cs : list EmergencyContact) :
  contacts_rows w = Ok (c :: cs) →
  let r := invoke w user audio_data filename latitude longitude timestamp in
  (fallback_notification_threw w r.1 →
     alerts r.1 = [] ∧ ∃ msg, r.2 = Raise (AlertProcessingError msg))
  ∧ (∀ e, r.2 = Raise e →
       (∃ msg, e = AlertProcessingError msg) ∧ alerts r.1 = []
       ∧ List.filter is_send_basic (trace r.1) ≠ []
       ∧ (is_Some (smtp_plain w)
          ∨ ∃ a, Commit a ∈ trace r.1 ∧ processing_status a = "fallback"
                 ∧ is_Some (db_commit w a)))
  ∧ (∀ resp, r.2 = Ok resp →
       ∃ a, alerts r.1 = [a] ∧ processing_status a = status resp).
Proof.
  intros Hc r. subst r. unfold_pipeline. cbn. rewrite Hc.
  unfold fallback_notification_threw, analyze_emergency_transcript.
  unfold_pipeline.
  destruct (whisper w) as [response| |m] eqn:Hw; cbn;
    [destruct (negb _ || _)|..]; world_cases; cbn;
    (split; [intros [Hb [x Hx]]; try done; eauto|]);
    (split; [intros e' [= <-]|intros resp' [= <-]; eauto]);
    (split; [eauto|]); (split; [done|]); (split; [done|]);
    first [ by left; eauto | right; fallback_commit_failed ].
Qed.

Lemma catastrophic_path_witness :
  let r := invoke w_whisper_and_mail_down alice [] "a.wav" here there "t0" in
  let r' := invoke w_whisper_down alice [] "a.wav" here there "t0" in
  contacts_rows w_whisper_and_mail_down = Ok [bob]
  ∧ notifications r.1 = [SendBasic ["bob@example.com"] "Alice" here there "t0"]
  ∧ smtp_plain w_whisper_and_mail_down = Some "smtp down"
  ∧ alerts r.1 = []
  ∧ (∃ msg, r.2 = Raise (AlertProcessingError msg))
  ∧ ∃ a, alerts r'.1 = [a] ∧ processing_status a = "fallback".
Proof.
  cbn zeta.
  destruct (catastrophic_path w_whisper_and_mail_down alice [] "a.wav" here
              there "t0" bob []) as (Hthrew & _ & _); [reflexivity|].
  destruct (catastrophic_path w_whisper_down alice [] "a.wav" here there "t0"
              bob []) as (_ & _ & Hreturns); [reflexivity|].
  destruct Hthrew as [Hnone Hraise].
  { split; [vm_compute; discriminate|eexists; reflexivity]. }
  split; [reflexivity|]. split; [reflexivity|]. split; [reflexivity|].
  split; [exact Hnone|]. split; [exact Hraise|].
  exact (Hreturns _ eq_refl).
Defined.

(** C7: for an empty or whitespace-only transcript the analyzer returns the
    fixed summary without making the chat-completion call; and in the
    pipeline, when the transcriber returns only whitespace (or nothing), no
    chat-completion call is made, the rich notification carries the fixed
    summary, and so do the success row and the success response. *)
Theorem blank_transcript_skips_analysis (w : World) (user : User)
    (audio_data : bytes) (filename : string) (latitude longitude : float)
    (timestamp : string) (c : EmergencyContact) (cs : list EmergencyContact)
    (response : string) :
  (∀ transcript st, whitespace_only transcript = true →
     analyze_emergency_transcript w transcript st = (st, Ok unclear))
  ∧ (contacts_rows w = Ok (c :: cs) →
     whisper w = Returned response →
     whitespace_only response = true →
     let r := invoke w user audio_data filename latitude longitude timestamp in
     List.filter is_chat (trace r.1) = []
     ∧ List.filter is_send_rich (trace r.1)
       = [SendRich (contact_email <$> c :: cs) (full_name user) latitude
            longitude unclear timestamp]
     ∧ (∀ a, a ∈ alerts r.1 → processing_status a = "success" →
             ai_analysis a = unclear)
     ∧ (∀ resp, r.2 = Ok resp → status resp = "success" →
                response_ai_analysis resp = Some unclear)).
Proof.
  split; [intros; by apply analyze_skips|].
  intros Hc Hw Hblank r. subst r. unfold_pipeline. cbn. rewrite Hc. cbn.
  rewrite Hw. cbn. rewrite truthy_whitespace_strip by done.
  rewrite analyze_skips by done.
  world_cases; cbn; (split; [done|]); (split; [done|]);
    (split; [|by intros resp' [= <-]]);
    intros a Ha; try (by apply elem_of_nil in Ha);
    apply list_elem_of_singleton in Ha; by subst a.
Qed.

Lemma blank_transcript_skips_analysis_witness :
  whitespace_only "   " = true
  ∧ List.filter is_chat
      (trace (invoke w_silence alice [] "a.wav" here there "t0").1) = []
  ∧ List.filter is_send_rich
      (trace (invoke w_silence alice [] "a.wav" here there "t0").1)
    = [SendRich ["bob@example.com"] "Alice" here there
         "The situation is unclear from the audio." "t0"].
Proof.
  split; [reflexivity|].
  destruct (blank_transcript_skips_analysis w_silence alice [] "a.wav" here
              there "t0" bob [] "   ") as [_ H].
  destruct H as (Hchat & Hrich & _); [reflexivity|reflexivity|reflexivity|].
  split; [exact Hchat|exact Hrich].
Defined.

(** The primary path: when transcription, analysis, the rich notification
    and the commit all go through, no basic notification is sent, the success
    row is the one row persisted and the outcome is the success one. *)
Lemma primary_path (w : World) (user : User) (audio_data : bytes)
    (filename : string) (latitude longitude : float) (timestamp : string)
    (c : EmergencyContact) (cs : list EmergencyContact)
    (transcript ai_analysis : string) (st1 st2 : Store) :
  contacts_rows w = Ok (c :: cs) →
  transcribe_audio w audio_data filename
    (mkStore [SelectContacts (id user)] []) = (st1, Ok transcript) →
  analyze_emergency_transcript w transcript st1 = (st2, Ok ai_analysis) →
  smtp_template w = None →
  db_commit w (success_alert user latitude longitude transcript ai_analysis
                 (contact_email <$> c :: cs)) = None →
  let r := invoke w user audio_data filename latitude longitude timestamp in
  List.filter is_send_basic (trace r.1) = List.filter is_send_basic (trace st2)
  ∧ alerts r.1 = (alerts st2 ++
      [success_alert user latitude longitude transcript ai_analysis
         (contact_email <$> c :: cs)])%list
  ∧ ∃ resp, r.2 = Ok resp ∧ status resp = "success".
Proof.
  intros Hc Ht Ha Hm Hd r. subst r.
  unfold invoke, process_emergency_alert, _get_user_emergency_contacts,
    try_except, mbind, M_bind, emit. cbn. rewrite Hc. cbn.
  rewrite Ht, Ha. unfold send_emergency_alert, add_and_commit, emit,
    insert_row, mbind, M_bind, mret, M_ret. cbn. rewrite Hm. cbn in *.
  rewrite Hd. cbn. split; [|eauto].
  rewrite !List.filter_app. cbn. by rewrite !app_nil_r.
Qed.

(** When transcription, analysis and the rich notification go through and
    the commit of the success row raises, the [except] branch runs: the basic
    notification is sent after the rich one. *)
Lemma commit_failure_enters_fallback (w : World) (user : User)
    (audio_data : bytes) (filename : string) (latitude longitude : float)
    (timestamp : string) (c : EmergencyContact) (cs : list EmergencyContact)
    (transcript ai_analysis err : string) (st1 st2 : Store) :
  contacts_rows w = Ok (c :: cs) →
  transcribe_audio w audio_data filename
    (mkStore [SelectContacts (id user)] []) = (st1, Ok transcript) →
  analyze_emergency_transcript w transcript st1 = (st2, Ok ai_analysis) →
  smtp_template w = None →
  db_commit w (success_alert user latitude longitude transcript ai_analysis
                 (contact_email <$> c :: cs)) = Some err →
  let r := invoke w user audio_data filename latitude longitude timestamp in
  ∃ tail,
    trace r.1
    = (trace st2 ++
       [SendRich (contact_email <$> c :: cs) (full_name user) latitude
          longitude ai_analysis timestamp;
        Commit (success_alert user latitude longitude transcript ai_analysis
                  (contact_email <$> c :: cs));
        SendBasic (contact_email <$> c :: cs) (full_name user) latitude
          longitude timestamp] ++ tail)%list.
Proof.
  intros Hc Ht Ha Hm Hd r. subst r.
  unfold invoke, process_emergency_alert, _get_user_emergency_contacts,
    try_except, mbind, M_bind, emit. cbn. rewrite Hc. cbn.
  rewrite Ht, Ha. unfold send_emergency_alert, send_fallback_alert,
    add_and_commit, emit, insert_row, raise, mbind, M_bind, mret, M_ret.
  cbn. rewrite Hm. cbn in *. rewrite Hd.
  world_cases; cbn; eexists; rewrite <- !app_assoc; cbn; reflexivity.
Qed.

Lemma transcribe_audio_store w audio_data filename st st1 transcript :
  transcribe_audio w audio_data filename st = (st1, Ok transcript) →
  st1 = mkStore (trace st ++ [Transcription audio_data filename]) (alerts st).
Proof.
  unfold transcribe_audio, emit, raise, mbind, M_bind, mret, M_ret. cbn.
  destruct (whisper w); cbn; congruence.
Qed.

Lemma analyze_store w transcript st st2 r :
  analyze_emergency_transcript w transcript st = (st2, r) →
  st2 = mkStore
          (trace st ++
           if whitespace_only transcript then []
           else [ChatCompletion (_create_analysis_prompt transcript)])
          (alerts st).
Proof.
  destruct (whitespace_only transcript) eqn:Hw.
  - rewrite analyze_skips by done. intros [= <- _]. rewrite app_nil_r.
    by destruct st.
  - destruct (analyze_calls w transcript st Hw) as [r' ->]. congruence.
Qed.

(** C2, where the claim fails: transcription, analysis and the rich
    notification all succeed and the commit of the success row raises.  The
    [except] branch then runs, for every world: the contacts receive the
    rich notification and, after it, the basic one; no success row is
    persisted and no success outcome is returned.  When the commit of the
    fallback row raises as well, nothing is persisted and the call raises a
    processing failure. *)
Theorem persist_failure_sends_second_notification (w : World) (user : User)
    (audio_data : bytes) (filename : string) (latitude longitude : float)
    (timestamp : string) (c : EmergencyContact) (cs : list EmergencyContact)
    (transcript ai_analysis err : string) (st1 st2 : Store) :
  contacts_rows w = Ok (c :: cs) →
  transcribe_audio w audio_data filename
    (mkStore [SelectContacts (id user)] []) = (st1, Ok transcript) →
  analyze_emergency_transcript w transcript st1 = (st2, Ok ai_analysis) →
  smtp_template w = None →
  db_commit w (success_alert user latitude longitude transcript ai_analysis
                 (contact_email <$> c :: cs)) = Some err →
  let r := invoke w user audio_data filename latitude longitude timestamp in
  let emails := contact_email <$> c :: cs in
  notifications r.1
  = [SendRich emails (full_name user) latitude longitude ai_analysis
       timestamp;
     SendBasic emails (full_name user) latitude longitude timestamp]
  ∧ (∀ a, a ∈ alerts r.1 → processing_status a = "fallback")
  ∧ (∀ resp, r.2 = Ok resp → status resp = "fallback")
  ∧ (is_Some (db_commit w (fallback_alert user latitude longitude emails
                             (OtherException err))) →
     alerts r.1 = [] ∧ ∃ msg, r.2 = Raise (AlertProcessingError msg)).
Proof.
  intros Hc Ht Ha Hm Hd r emails. subst r emails.
  pose proof (transcribe_audio_store _ _ _ _ _ _ Ht) as ->.
  pose proof (analyze_store _ _ _ _ _ Ha) as ->.
  unfold invoke, process_emergency_alert, _get_user_emergency_contacts,
    try_except, mbind, M_bind, emit. cbn. rewrite Hc. cbn.
  cbn in Ht, Ha. rewrite Ht, Ha.
  unfold send_emergency_alert, send_fallback_alert, add_and_commit, emit,
    insert_row, raise, mbind, M_bind, mret, M_ret, notifications.
  cbn. rewrite Hm. cbn in *. rewrite Hd. cbn.
  destruct (whitespace_only transcript); cbn;
    destruct (smtp_plain w) as [e1|]; cbn;
    try destruct (db_commit w (fallback_alert _ _ _ _ _)) as [e2|]; cbn;
    (split; [reflexivity|]);
    (split; [intros a Ha';
             first [ by apply elem_of_nil in Ha'
                   | by apply list_elem_of_singleton in Ha' as -> ]|]);
    (split; [by intros resp [= <-]|]);
    first [ by eauto | by intros [? [=]] ].
Qed.

Lemma persist_failure_sends_second_notification_witness :
  let r := invoke w_db_down alice [] "a.wav" here there "t0" in
  notifications r.1
  = [SendRich ["bob@example.com"] "Alice" here there "Caller asks for help."
       "t0";
     SendBasic ["bob@example.com"] "Alice" here there "t0"]
  ∧ alerts r.1 = []
  ∧ ∃ msg, r.2 = Raise (AlertProcessingError msg).
Proof.
  cbn zeta.
  destruct (persist_failure_sends_second_notification w_db_down alice []
              "a.wav" here there "t0" bob [] "help me" "Caller asks for help."
              "connection lost"
              (mkStore [SelectContacts "user-1"; Transcription [] "a.wav"] [])
              (mkStore [SelectContacts "user-1"; Transcription [] "a.wav";
                        ChatCompletion (_create_analysis_prompt "help me")]
                 []))
    as (Hn & _ & _ & Hdown).
  - reflexivity.
  - reflexivity.
  - reflexivity.
  - reflexivity.
  - reflexivity.
  - split; [exact Hn|]. apply Hdown. eexists. reflexivity.
Defined.

(** ** Further properties of the pipeline *)

(** Whenever contacts are configured, at least one notification is attempted
    and at most two: the rich one, the basic one, or the rich one followed by
    the basic one; each goes to the list of all contact addresses, with the
    caller's name, coordinates and timestamp. *)
Theorem notifications_shape (w : World) (user : User) (audio_data : bytes)
    (filename : string) (latitude longitude : float) (timestamp : string)
    (c : EmergencyContact) (cs : list EmergencyContact) :
  contacts_rows w = Ok (c :: cs) →
  let r := invoke w user audio_data filename latitude longitude timestamp in
  let emails := contact_email <$> c :: cs in
  let basic := SendBasic emails (full_name user) latitude longitude timestamp in
  ∃ analysis,
    let rich := SendRich emails (full_name user) latitude longitude analysis
                  timestamp in
    notifications r.1 = [rich] ∨ notifications r.1 = [basic]
    ∨ notifications r.1 = [rich; basic].
Proof.
  intros Hc r. subst r. unfold_pipeline. cbn. rewrite Hc.
  unfold analyze_emergency_transcript. unfold_pipeline.
  destruct (whisper w) as [response| |m] eqn:Hw; cbn;
    [destruct (negb _ || _)|..]; world_cases; cbn;
    first [ by exists "" ; auto | by eexists; auto ].
Qed.

Lemma notifications_shape_witness :
  contacts_rows w_all_up = Ok [bob]
  ∧ ∃ analysis,
      notifications (invoke w_all_up alice [] "a.wav" here there "t0").1
      = [SendRich ["bob@example.com"] "Alice" here there analysis "t0"]
      ∨ notifications (invoke w_all_up alice [] "a.wav" here there "t0").1
        = [SendBasic ["bob@example.com"] "Alice" here there "t0"]
      ∨ notifications (invoke w_all_up alice [] "a.wav" here there "t0").1
        = [SendRich ["bob@example.com"] "Alice" here there analysis "t0";
           SendBasic ["bob@example.com"] "Alice" here there "t0"].
Proof.
  split; [reflexivity|].
  apply (notifications_shape w_all_up alice [] "a.wav" here there "t0" bob []).
  reflexivity.
Defined.

(** Every collaborator is called at most once per invocation and in pipeline
    order: contacts query, transcription, analysis, rich mail, commit of the
    success row, basic mail, commit of the fallback row.  In particular no
    OpenAI call follows a mail, and no commit precedes the mail it records. *)
Theorem calls_in_pipeline_order (w : World) (user : User) (audio_data : bytes)
    (filename : string) (latitude longitude : float) (timestamp : string) :
  let r := invoke w user audio_data filename latitude longitude timestamp in
  StronglySorted lt (phase <$> trace r.1).
Proof.
  intros r. subst r. unfold_pipeline. cbn.
  unfold analyze_emergency_transcript. unfold_pipeline.
  destruct (contacts_rows w) as [[|c cs]|e] eqn:Hc; cbn;
    [| destruct (whisper w) as [response| |m] eqn:Hw; cbn;
       [destruct (negb _ || _)|..]; world_cases; cbn |];
    repeat (constructor; [|repeat (constructor; [lia|]); by constructor]);
    constructor.
Qed.

(** What gets persisted: at most one row per invocation; it carries the
    caller's id and coordinates and the number of contacts; a success row is
    written only after the rich mail returned and has no error detail; a
    fallback row is written only after the basic mail returned and always has
    an empty transcript, the fixed analysis text and an error detail, also
    when the transcription itself had succeeded. *)
Theorem persisted_rows (w : World) (user : User) (audio_data : bytes)
    (filename : string) (latitude longitude : float) (timestamp : string)
    (c : EmergencyContact) (cs : list EmergencyContact) :
  contacts_rows w = Ok (c :: cs) →
  let r := invoke w user audio_data filename latitude longitude timestamp in
  (length (alerts r.1) ≤ 1)%nat
  ∧ ∀ a, a ∈ alerts r.1 →
      user_id a = id user ∧ Alerts.latitude a = latitude
      ∧ Alerts.longitude a = longitude
      ∧ contacts_notified a = length (c :: cs)
      ∧ db_commit w a = None
      ∧ ((processing_status a = "success" ∧ smtp_template w = None
          ∧ error_details a = None)
         ∨ (processing_status a = "fallback" ∧ smtp_plain w = None
            ∧ transcript a = "" ∧ ai_analysis a = "AI processing unavailable"
            ∧ is_Some (error_details a))).
Proof.
  intros Hc r. subst r. unfold_pipeline. cbn. rewrite Hc.
  unfold analyze_emergency_transcript. unfold_pipeline.
  destruct (whisper w) as [response| |m] eqn:Hw; cbn;
    [destruct (negb _ || _)|..]; world_cases; cbn;
    (split; [lia|]); intros a Ha;
    try (by apply elem_of_nil in Ha);
    apply list_elem_of_singleton in Ha; subst a; cbn;
    rewrite ?length_fmap; repeat (split; [done|]); eauto 10.
Qed.

Lemma persisted_rows_witness :
  contacts_rows w_whisper_down = Ok [bob]
  ∧ ∀ a, a ∈ alerts (invoke w_whisper_down alice [] "a.wav" here there
                       "t0").1 →
         contacts_notified a = 1 ∧ user_id a = "user-1".
Proof.
  split; [reflexivity|]. intros a Ha.
  destruct (persisted_rows w_whisper_down alice [] "a.wav" here there
              "t0" bob []) as [_ H]; [reflexivity|].
  destruct (H a Ha) as (Hid & _ & _ & Hn & _). split; [exact Hn|exact Hid].
Defined.

(** The outcome returned agrees with the row persisted: the same status, the
    same number of contacts, and the analysis text (success) or the error
    text (fallback) of the row. *)
Theorem response_matches_row (w : World) (user : User) (audio_data : bytes)
    (filename : string) (latitude longitude : float) (timestamp : string)
    (c : EmergencyContact) (cs : list EmergencyContact) (resp : Response) :
  contacts_rows w = Ok (c :: cs) →
  let r := invoke w user audio_data filename latitude longitude timestamp in
  r.2 = Ok resp →
  ∃ a, alerts r.1 = [a]
       ∧ status resp = processing_status a
       ∧ response_contacts_notified resp = contacts_notified a
       ∧ error resp = error_details a
       ∧ (status resp = "success" ∧ response_ai_analysis resp = Some (ai_analysis a)
          ∨ status resp = "fallback" ∧ response_ai_analysis resp = None).
Proof.
  intros Hc r. subst r. unfold_pipeline. cbn. rewrite Hc.
  unfold analyze_emergency_transcript. unfold_pipeline.
  destruct (whisper w) as [response| |m] eqn:Hw; cbn;
    [destruct (negb _ || _)|..]; world_cases; cbn;
    intros [= <-]; eexists; (split; [reflexivity|]); cbn; auto 10.
Qed.

Lemma response_matches_row_witness :
  ∃ a, alerts (invoke w_all_up alice [] "a.wav" here there "t0").1 = [a]
       ∧ processing_status a = "success"
       ∧ ai_analysis a = "Caller asks for help.".
Proof.
  destruct (response_matches_row w_all_up alice [] "a.wav" here there "t0"
              bob []
              (mkResponse "success" "Emergency alert processed and sent" 1
                 (Some "Caller asks for help.") None))
    as (a & Ha & Hs & _ & _ & [[_ Han]|[Hf _]]).
  - reflexivity.
  - reflexivity.
  - exists a. split; [exact Ha|]. split; [by rewrite <- Hs|].
    by injection Han as <-.
  - discriminate Hf.
Defined.

(** ** Further properties of the OpenAI client *)

Lemma rstrip_idempotent s : rstrip (rstrip s) = rstrip s.
Proof.
  induction s as [|c s IH]; [done|]. simpl.
  destruct (rstrip s) as [|d r] eqn:E.
  - destruct (isspace c) eqn:Hc; [done|]. simpl. by rewrite Hc.
  - change (rstrip (String c (String d r))) with
      (match rstrip (String d r) with
       | EmptyString => if isspace c then EmptyString else String c EmptyString
       | r' => String c r'
       end).
    by rewrite IH.
Qed.

Lemma lstrip_head s c s' : lstrip s = String c s' → isspace c = false.
Proof.
  induction s as [|d s IH]; [done|]. simpl.
  destruct (isspace d) eqn:Hd; [done|]. by intros [= <- <-].
Qed.

Lemma rstrip_keeps_head c s :
  isspace c = false → ∃ r, rstrip (String c s) = String c r.
Proof.
  intros Hc. simpl. destruct (rstrip s); [|by eexists].
  rewrite Hc. by eexists.
Qed.

Lemma strip_idempotent s : strip (strip s) = strip s.
Proof.
  unfold strip. destruct (lstrip s) as [|c s'] eqn:E; [done|].
  apply lstrip_head in E.
  destruct (rstrip_keeps_head c s' E) as [r Hr]. rewrite Hr.
  simpl lstrip. rewrite E. rewrite <- Hr. apply rstrip_idempotent.
Qed.

(** A transcript that [transcribe_audio] returns is already stripped (it has
    no leading or trailing whitespace); the call is the only event and the
    [alerts] table is not touched. *)
Theorem transcribe_audio_stripped (w : World) (audio_data : bytes)
    (filename : string) (st st' : Store) (transcript : string) :
  transcribe_audio w audio_data filename st = (st', Ok transcript) →
  strip transcript = transcript
  ∧ trace st' = (trace st ++ [Transcription audio_data filename])%list
  ∧ alerts st' = alerts st.
Proof.
  unfold_pipeline. cbn.
  destruct (whisper w) as [response| |m]; cbn; [|done|done].
  intros [= <- <-]. split; [|done].
  destruct (truthy response); [apply strip_idempotent|done].
Qed.

Lemma transcribe_audio_stripped_witness :
  transcribe_audio w_all_up [] "a.wav" empty_store
  = (mkStore [Transcription [] "a.wav"] [], Ok "help me")
  ∧ strip "help me" = "help me".
Proof.
  split; [reflexivity|].
  apply (transcribe_audio_stripped w_all_up [] "a.wav" empty_store
           (mkStore [Transcription [] "a.wav"] []) "help me").
  reflexivity.
Defined.

(** [analyze_emergency_transcript] makes the chat-completion call exactly
    when the transcript has a character that is not whitespace, and then
    exactly once, with the prompt built from the transcript; it never touches
    the [alerts] table, a summary it returns is stripped, and every failure
    is raised as an [AnalysisError]. *)
Theorem analysis_call_and_result (w : World) (transcript : string) (st : Store) :
  let r := analyze_emergency_transcript w transcript st in
  trace r.1
  = (trace st ++ if whitespace_only transcript then []
                 else [ChatCompletion (_create_analysis_prompt transcript)])%list
  ∧ alerts r.1 = alerts st
  ∧ (∀ summary, r.2 = Ok summary → strip summary = summary)
  ∧ (∀ e, r.2 = Raise e → ∃ msg, e = AnalysisError msg).
Proof.
  intros r. subst r. unfold analyze_emergency_transcript.
  rewrite analysis_guard.
  destruct (whitespace_only transcript); unfold_pipeline; cbn.
  - rewrite app_nil_r. repeat split; try done. by intros ? [= <-].
  - destruct (chat w _) as [[|[content|] l]| |m]; cbn;
      repeat split; try done; try (intros ? [= <-]; eauto).
    apply strip_idempotent.
Qed.

(** The first call of an invocation is the query for the caller's
    contacts. *)
Lemma first_call_reads_contacts w user audio_data filename latitude longitude
    timestamp :
  head (trace (invoke w user audio_data filename latitude longitude
                 timestamp).1)
  = Some (SelectContacts (id user)).
Proof.
  unfold_pipeline. cbn.
  unfold analyze_emergency_transcript. unfold_pipeline.
  destruct (contacts_rows w) as [[|c cs]|e] eqn:Hc; cbn; [done| |done].
  destruct (whisper w) as [response| |m] eqn:Hw; cbn;
    [destruct (negb _ || _)|..]; world_cases; by cbn.
Qed.

End AlertsProps.

(* ===================================================================== *)
(** * Properties of the message loop                                      *)
(* ===================================================================== *)

Module SessionProps.
Import Registry Session.

(** ** Properties of the message loop *)





(** ** Further properties of the message loop *)

Lemma LocationUpdateMessage_ok lib d la lo :
  LocationUpdateMessage lib d = inr (la, lo) →
  get "type" d = Some (JString LOCATION_UPDATE)
  ∧ (∃ v, get "latitude" d = Some v ∧ coerce_float lib v = Some la)
  ∧ (∃ v, get "longitude" d = Some v ∧ coerce_float lib v = Some lo)
  ∧ latitude_ok la = true ∧ longitude_ok lo = true.
Proof.
  unfold LocationUpdateMessage.
  destruct (get "type" d) as [[| | | |t| |]|]; try discriminate.
  destruct (get "latitude" d) as [vla|]; [|discriminate].
  destruct (get "longitude" d) as [vlo|]; [|discriminate].
  destruct (coerce_float lib vla) as [la'|] eqn:Hvla; [|discriminate].
  destruct (coerce_float lib vlo) as [lo'|] eqn:Hvlo; [|discriminate].
  destruct (String.eqb_spec t LOCATION_UPDATE) as [->|]; [|discriminate].
  simpl.
  destruct (latitude_ok la') eqn:Hla; [|discriminate].
  destruct (longitude_ok lo') eqn:Hlo; [|discriminate]. simpl.
  intros [= <- <-]. eauto 10.
Qed.

Lemma valid_update_iteration lib net ws t u n data d la lo mgr :
  json_loads lib data = Some (JObject d) →
  LocationUpdateMessage lib d = inr (la, lo) →
  iteration lib net ws t u n (Text data) mgr
  = let b := broadcast_to_trip net (model_dump_json lib u n la lo) t (Some u)
               mgr in
    mkStep b.1 b.2 [] InLoop.
Proof.
  intros Hd Hl.
  destruct (LocationUpdateMessage_ok _ _ _ _ Hl) as (Ht & _ & _ & Hla & Hlo).
  unfold iteration, try_body. rewrite Hd, Ht.
  rewrite String.eqb_refl, Hl. unfold handle_location_update.
  by rewrite Hla, Hlo.
Qed.

Ltac reply_cases net :=
  cbn; repeat (destruct (net _ _ _); cbn).

Lemma iteration_cases lib net ws t u n received mgr :
  let o := iteration lib net ws t u n received mgr in
  (peer_sends o = [] ∧ manager o = mgr)
  ∨ ∃ data d la lo,
      received = Text data ∧ json_loads lib data = Some (JObject d)
      ∧ LocationUpdateMessage lib d = inr (la, lo).
Proof.
  cbn zeta. unfold iteration, try_body, reply.
  destruct received as [data|e]; [|left; by reply_cases net].
  destruct (json_loads lib data) as [v|] eqn:Hd; [|left; by reply_cases net].
  destruct v as [| | | | | |d]; try (left; by reply_cases net).
  destruct (get "type" d) as [[| | | |tp| |]|];
    try (left; by reply_cases net).
  destruct (String.eqb tp LOCATION_UPDATE); [|left; by reply_cases net].
  destruct (LocationUpdateMessage lib d) as [e|[la lo]] eqn:Hl;
    [left; by reply_cases net|].
  right. by exists data, d, la, lo.
Qed.

Lemma iteration_delivered_errors lib net ws t u n received mgr text :
  text ∈ delivered (iteration lib net ws t u n received mgr) →
  ∃ error detail, text = json_dumps lib (error_msg error detail).
Proof.
  unfold iteration, try_body, reply.
  assert (∀ e d, text ∈ [json_dumps lib (error_msg e d)] →
                 ∃ error detail, text = json_dumps lib (error_msg error detail))
    as Hone by (intros e d ->%list_elem_of_singleton; eauto).
  assert (text ∈ [] →
          ∃ error detail, text = json_dumps lib (error_msg error detail))
    as Hnil by (by intros ?%elem_of_nil).
  destruct received as [data|e]; [|reply_cases net; solve [eauto]].
  destruct (json_loads lib data) as [v|]; [|reply_cases net; solve [eauto]].
  destruct v as [| | | | | |d]; try (reply_cases net; solve [eauto]).
  destruct (get "type" d) as [[| | | |tp| |]|];
    try (reply_cases net; solve [eauto]).
  destruct (String.eqb tp LOCATION_UPDATE); [|reply_cases net; solve [eauto]].
  destruct (LocationUpdateMessage lib d) as [e|[la lo]];
    reply_cases net; solve [eauto].
Qed.

Lemma iteration_peers lib net ws t u n received mgr x :
  x ∈ peer_sends (iteration lib net ws t u n received mgr) →
  send_user x ≠ u ∧ member_handle t (send_user x) mgr = Some (send_socket x).
Proof.
  intros Hx.
  destruct (iteration_cases lib net ws t u n received mgr)
    as [[Hnil _]|(data & d & la & lo & -> & Hd & Hl)].
  - rewrite Hnil in Hx. by apply elem_of_nil in Hx.
  - rewrite (valid_update_iteration _ _ _ _ _ _ _ _ _ _ _ Hd Hl) in Hx.
    cbn in Hx.
    apply RegistryProps.broadcast_sent_elem in Hx as (? & _ & ?).
    split; congruence.
Qed.

Lemma iteration_handle_mono lib net ws t u n received mgr t' v h :
  member_handle t' v (manager (iteration lib net ws t u n received mgr))
  = Some h →
  member_handle t' v mgr = Some h.
Proof.
  destruct (iteration_cases lib net ws t u n received mgr)
    as [[_ ->]|(data & d & la & lo & -> & Hd & Hl)]; [done|].
  rewrite (valid_update_iteration _ _ _ _ _ _ _ _ _ _ _ Hd Hl). cbn.
  apply RegistryProps.broadcast_handle_mono.
Qed.

(** A well-formed location update is broadcast to the other participants of
    the trip and to nobody else: the sender gets no message, the session
    stays in the loop whatever happens to the sends to the peers, and every
    send goes to a registered member other than the sender and carries the
    participant-location text built from the sender's identity and the
    coordinates. *)
Theorem location_update_is_broadcast (lib : Library) (net : Network)
    (websocket : WebSocket) (trip_id user_id user_name data : string)
    (message_data : list (string * JSON)) (la lo : float)
    (connection_manager : ConnectionManager) :
  json_loads lib data = Some (JObject message_data) →
  LocationUpdateMessage lib message_data = inr (la, lo) →
  let o := iteration lib net websocket trip_id user_id user_name (Text data)
             connection_manager in
  let b := broadcast_to_trip net
             (model_dump_json lib user_id user_name la lo) trip_id
             (Some user_id) connection_manager in
  state o = InLoop ∧ delivered o = [] ∧ peer_sends o = b.2 ∧ manager o = b.1
  ∧ ∀ x, x ∈ peer_sends o →
      send_user x ≠ user_id
      ∧ send_message x = model_dump_json lib user_id user_name la lo
      ∧ member_handle trip_id (send_user x) connection_manager
        = Some (send_socket x).
Proof.
  intros Hd Hl o b. subst o b.
  rewrite (valid_update_iteration _ _ _ _ _ _ _ _ _ _ _ Hd Hl). cbn.
  do 4 (split; [done|]). intros x Hx.
  apply RegistryProps.broadcast_sent_elem in Hx as (? & ? & ?).
  repeat split; congruence.
Qed.

Lemma location_update_is_broadcast_witness :
  let o := iteration Endpoint.sample_decoder all_up 1 "A" "u" "Una"
             (Text "here") Endpoint.room_A in
  state o = InLoop ∧ delivered o = []
  ∧ peer_sends o = [mkSend "v" 2 "location of Una"].
Proof.
  cbn zeta.
  destruct (location_update_is_broadcast Endpoint.sample_decoder all_up 1 "A"
              "u" "Una" "here"
              [("type", JString "location_update");
               ("latitude", JFloat Alerts.Coordinates.here);
               ("longitude", JFloat Alerts.Coordinates.there)]
              Alerts.Coordinates.here Alerts.Coordinates.there
              Endpoint.room_A) as (Hs & Hd & Hp & _).
  - reflexivity.
  - reflexivity.
  - split; [exact Hs|]. split; [exact Hd|]. rewrite Hp. vm_compute.
    reflexivity.
Defined.



Lemma message_loop_among_alone lib net ws t u n inbox mgr :
  Shared.message_loop_among lib net ws t u n (Shared.Frame <$> inbox) mgr
  = message_loop lib net ws t u n inbox mgr.
Proof.
  revert mgr. induction inbox as [|r inbox IH]; intros mgr; [done|].
  cbn [fmap list_fmap Shared.message_loop_among message_loop].
  destruct (state (iteration lib net ws t u n r mgr)); [|done].
  cbn zeta. by rewrite IH.
Qed.

Lemma step_handle_origin s o t v h :
  member_handle t v (step s o) = Some h →
  member_handle t v s = Some h ∨ o = Connect h t v true.
Proof.
  destruct o as [ws t0 u0 [|]|u0|net0 m0 t0 e0]; cbn [step].
  - rewrite RegistryProps.connect_handle. case_decide as H; [|by left].
    destruct H as [-> ->]. intros [= ->]. by right.
  - by left.
  - rewrite RegistryProps.disconnect_handle. case_decide; [done|by left].
  - intros H%RegistryProps.broadcast_handle_mono. by left.
Qed.

(** The message loop on the shared registry, whatever frames arrive and
    whatever the other sessions do to the registry between them: the only
    texts the loop sends to its own client are error objects; none of its
    sends to a peer targets the session's own user; every send to a peer
    goes to a handle that was registered under the session's trip when the
    loop started or that a [connect] of another session registers there
    during the loop; and the loop itself adds no handle: what the registry
    holds in the end was there at the start or was registered by a
    [connect] of another session. *)
Theorem message_loop_outputs (lib : Library) (net : Network)
    (websocket : WebSocket) (trip_id user_id user_name : string)
    (turns : list Shared.Turn) (connection_manager : ConnectionManager) :
  let o := Shared.message_loop_among lib net websocket trip_id user_id
             user_name turns connection_manager in
  (∀ text, text ∈ delivered o →
     ∃ error detail, text = json_dumps lib (error_msg error detail))
  ∧ (∀ x, x ∈ peer_sends o →
       send_user x ≠ user_id
       ∧ (member_handle trip_id (send_user x) connection_manager
          = Some (send_socket x)
          ∨ Shared.Other (Connect (send_socket x) trip_id (send_user x) true)
            ∈ turns))
  ∧ (∀ t v h, member_handle t v (manager o) = Some h →
       member_handle t v connection_manager = Some h
       ∨ Shared.Other (Connect h t v true) ∈ turns).
Proof.
  cbn zeta. revert connection_manager.
  induction turns as [|[r|op] turns IH]; intros mgr;
    cbn [Shared.message_loop_among].
  { cbn. split; [|split]; try (by intros ? ?%elem_of_nil). by left. }
  - pose proof (iteration_delivered_errors lib net websocket trip_id user_id
                  user_name r mgr) as Hdel.
    pose proof (iteration_peers lib net websocket trip_id user_id user_name r
                  mgr) as Hpeer.
    pose proof (iteration_handle_mono lib net websocket trip_id user_id
                  user_name r mgr) as Hmono.
    destruct (state (iteration lib net websocket trip_id user_id user_name r
                       mgr)); cbn zeta.
    + destruct (IH (manager (iteration lib net websocket trip_id user_id
                               user_name r mgr))) as (IHd & IHp & IHm).
      cbn. split; [|split].
      * intros text [?|?]%elem_of_app; eauto.
      * intros x [Hx|Hx]%elem_of_app.
        -- destruct (Hpeer x Hx) as [? ?]. split; [done|by left].
        -- destruct (IHp x Hx) as [? [Hh|Hin]]; (split; [done|]).
           ++ left. by apply Hmono.
           ++ right. by apply list_elem_of_further.
      * intros t v h Hh. destruct (IHm t v h Hh) as [Hh'|Hin].
        -- left. by apply Hmono.
        -- right. by apply list_elem_of_further.
    + split; [done|]. split.
      * intros x Hx. destruct (Hpeer x Hx) as [? ?]. split; [done|by left].
      * intros t v h Hh. left. by apply Hmono.
  - destruct (IH (step mgr op)) as (IHd & IHp & IHm).
    split; [done|]. split.
    + intros x Hx. destruct (IHp x Hx) as [? [Hh|Hin]]; (split; [done|]).
      * apply step_handle_origin in Hh as [Hh| ->]; [by left|].
        right. apply list_elem_of_here.
      * right. by apply list_elem_of_further.
    + intros t v h Hh. destruct (IHm t v h Hh) as [Hh'|Hin].
      * apply step_handle_origin in Hh' as [Hh'| ->]; [by left|].
        right. apply list_elem_of_here.
      * right. by apply list_elem_of_further.
Qed.

Lemma message_loop_outputs_witness :
  let turns := [Shared.Other (Connect 2 "A" "v" true);
                Shared.Frame (Text "here")] in
  let start := connect 1 "A" "u" true init in
  let o := Shared.message_loop_among Endpoint.sample_decoder all_up 1 "A" "u"
             "Una" turns start in
  peer_sends o = [mkSend "v" 2 "location of Una"]
  ∧ member_handle "A" "v" start = None
  ∧ Shared.Other (Connect 2 "A" "v" true) ∈ turns.
Proof.
  intros turns start o.
  destruct (message_loop_outputs Endpoint.sample_decoder all_up 1 "A" "u"
              "Una" turns start) as (_ & Hp & _).
  split; [vm_compute; reflexivity|]. split; [vm_compute; reflexivity|].
  destruct (Hp (mkSend "v" 2 "location of Una")) as [_ [Hh|Hin]].
  - RegistryProps.by_eval.
  - vm_compute in Hh. discriminate Hh.
  - exact Hin.
Defined.

End SessionProps.

(* ===================================================================== *)
(** * Properties of the alert upload endpoint                             *)
(* ===================================================================== *)

Module UploadProps.
Import Alerts Upload.

Lemma lower_char_idempotent c : lower_char (lower_char c) = lower_char c.
Proof. by destruct c as [[] [] [] [] [] [] [] []]. Qed.

Lemma lower_idempotent s : lower (lower s) = lower s.
Proof.
  induction s as [|c s IH]; [done|]. simpl.
  by rewrite lower_char_idempotent, IH.
Qed.

Lemma lower_empty s : lower s = "" → s = "".
Proof. by destruct s. Qed.

(** The content-type check ignores case: a content type is accepted exactly
    when its lower-case form is, and the nine listed types are accepted in
    any capitalisation; a missing or empty content type is rejected. *)
Theorem content_type_case_insensitive (ct : string) :
  _is_valid_audio_file (Some (lower ct)) = _is_valid_audio_file (Some ct)
  ∧ (_is_valid_audio_file (Some ct) = true ↔ lower ct ∈ valid_types)
  ∧ _is_valid_audio_file None = false
  ∧ _is_valid_audio_file (Some "") = false.
Proof.
  assert (_is_valid_audio_file (Some ct) = true ↔ lower ct ∈ valid_types)
    as Hiff.
  { unfold _is_valid_audio_file. destruct ct as [|c ct'].
    - split; [done|]. simpl. unfold valid_types. intros H.
      repeat (apply elem_of_cons in H as [H|H]; [discriminate|]).
      by apply elem_of_nil in H.
    - cbn [truthy]. apply bool_decide_eq_true. }
  split; [|done].
  unfold _is_valid_audio_file. rewrite lower_idempotent.
  destruct ct as [|c ct']; [done|]. done.
Qed.

(** Every rejection of an upload is an HTTP 400: the 413 raised for an
    oversized file is caught by the surrounding [except Exception] and
    re-raised as a 400, like the empty-file error and a failed read. *)
Theorem rejections_are_400 (exc_str : nat → string → string)
    (content_type filename : option string) (read : Result bytes)
    (latitude longitude : float) (current_user : User) :
  match create_emergency_alert exc_str content_type filename read latitude
          longitude current_user with
  | Accepted _ _ => True
  | HTTPException status_code _ => status_code = 400
  end.
Proof.
  unfold create_emergency_alert.
  destruct (_is_valid_audio_file content_type); cbn; [|done].
  destruct read as [audio_data|e]; [|done].
  destruct (Z.of_nat (length audio_data) =? 0)%Z; [done|].
  by destruct (Z.of_nat (length audio_data) >? 25 * 1024 * 1024)%Z.
Qed.

(** An upload is accepted exactly when the content type is valid, the read
    succeeds and the audio is non-empty and at most 25 MiB; the task then
    scheduled carries exactly the bytes read, the caller and the coordinates,
    with the default file name when the upload has none, and the response
    has status [processing]. *)
Theorem accepted_uploads (exc_str : nat → string → string)
    (content_type filename : option string) (read : Result bytes)
    (latitude longitude : float) (current_user : User) :
  let r := create_emergency_alert exc_str content_type filename read latitude
             longitude current_user in
  ((∃ task response, r = Accepted task response)
   ↔ _is_valid_audio_file content_type = true
     ∧ ∃ audio_data, read = Ok audio_data
         ∧ (0 < length audio_data)%nat
         ∧ (Z.of_nat (length audio_data) <= 26214400)%Z)
  ∧ ∀ task response, r = Accepted task response →
      read = Ok (task_audio_data task)
      ∧ task_user task = current_user
      ∧ task_latitude task = latitude ∧ task_longitude task = longitude
      ∧ task_filename task ≠ ""
      ∧ (∀ f, filename = Some f → f ≠ "" → task_filename task = f)
      ∧ response_status response = "processing"
      ∧ response_user_id response = id current_user
      ∧ response_location response = (latitude, longitude).
Proof.
  intros r. subst r. unfold create_emergency_alert.
  destruct (_is_valid_audio_file content_type); cbn; cycle 1.
  { split; [|done]. split; [by intros (? & ? & ?)|by intros [? _]]. }
  destruct read as [audio_data|e]; cycle 1.
  { split; [|done]. split; [by intros (? & ? & ?)|].
    by intros [_ (? & ? & _)]. }
  destruct (Z.eqb_spec (Z.of_nat (length audio_data)) 0) as [H0|H0].
  { split; [|done]. split; [by intros (? & ? & ?)|].
    intros [_ (? & [= <-] & ? & _)]. lia. }
  destruct (Z.gtb_spec (Z.of_nat (length audio_data)) (25 * 1024 * 1024))
    as [Hbig|Hbig].
  { split; [|done]. split; [by intros (? & ? & ?)|].
    intros [_ (? & [= <-] & _ & ?)]. lia. }
  split.
  - split; [|by eauto]. intros _. split; [done|].
    exists audio_data. split; [done|]. lia.
  - intros task response [= <- <-]. cbn. repeat split; try done.
    + destruct filename as [[|c f]|]; done.
    + intros f -> Hf. by destruct f.
Qed.

Lemma accepted_uploads_witness :
  ∃ task response,
    create_emergency_alert sample_exc_str (Some "audio/webm")
      (Some "sos.webm") (Ok [Byte.x78]) here there alice
    = Accepted task response
    ∧ task_filename task = "sos.webm"
    ∧ response_status response = "processing".
Proof.
  eexists _, _. split; [reflexivity|].
  destruct (accepted_uploads sample_exc_str (Some "audio/webm")
              (Some "sos.webm") (Ok [Byte.x78]) here there alice) as [_ H].
  destruct (H _ _ eq_refl) as (_ & _ & _ & _ & _ & Hf & Hs & _).
  split; [by apply Hf|exact Hs].
Defined.

(** A task scheduled by the endpoint hands the pipeline a non-empty recording
    of at most 25 MiB, and running it reads the contacts of the caller who
    uploaded it. *)
Theorem scheduled_task_precondition (exc_str : nat → string → string)
    (content_type filename : option string) (read : Result bytes)
    (latitude longitude : float) (current_user : User)
    (task : Task) (response : AlertResponse) (w : World) (timestamp : string) :
  create_emergency_alert exc_str content_type filename read latitude longitude
    current_user = Accepted task response →
  (0 < length (task_audio_data task))%nat
  ∧ (Z.of_nat (length (task_audio_data task)) <= 26214400)%Z
  ∧ head (trace (run_task w task timestamp).1)
    = Some (SelectContacts (id current_user)).
Proof.
  unfold create_emergency_alert.
  destruct (_is_valid_audio_file content_type); cbn; [|done].
  destruct read as [audio_data|e]; [|done].
  destruct (Z.eqb_spec (Z.of_nat (length audio_data)) 0) as [H0|H0]; [done|].
  destruct (Z.gtb_spec (Z.of_nat (length audio_data)) (25 * 1024 * 1024))
    as [Hbig|Hbig]; [done|].
  intros [= <- _]. cbn. split; [lia|]. split; [lia|].
  apply AlertsProps.first_call_reads_contacts.
Qed.

Lemma scheduled_task_precondition_witness :
  ∃ task response,
    create_emergency_alert sample_exc_str (Some "Audio/WAV") (Some "")
      (Ok [Byte.x78]) here there alice = Accepted task response
    ∧ task_filename task = "emergency_audio.wav"
    ∧ (0 < length (task_audio_data task))%nat.
Proof.
  eexists _, _. split; [reflexivity|]. split; [reflexivity|].
  eapply (scheduled_task_precondition sample_exc_str (Some "Audio/WAV")
            (Some "") (Ok [Byte.x78]) here there alice _ _ w_all_up "t0").
  reflexivity.
Defined.

End UploadProps.

(* ===================================================================== *)
(** * Properties of the WebSocket endpoint                                *)
(* ===================================================================== *)

Module EndpointProps.
Import Registry Session Endpoint.

Ltac in_list := refine (bool_decide_unpack _ _); vm_compute; exact I.



Lemma broadcast_all_sent net m t s v ws :
  member_handle t v s = Some ws →
  mkSend v ws m ∈ (broadcast_to_trip net m t None s).2.
Proof.
  unfold member_handle.
  destruct (trip_connections s !! t) as [members|] eqn:Hm; [|done]. simpl.
  intros Hv. rewrite (RegistryProps.broadcast_unfold _ _ _ _ _ members) by done.
  cbn [snd]. apply list_elem_of_fmap. exists (v, ws). split; [done|].
  apply list_elem_of_filter. split; [done|]. by apply elem_of_map_to_list.
Qed.


Lemma finally_block_mapping lib net t u n mgr :
  user_trip_mapping (finally_block lib net t u n mgr).1 !! u = None.
Proof.
  unfold finally_block.
  assert (user_trip_mapping (disconnect u mgr) !! u = None) as H.
  { rewrite RegistryProps.disconnect_mapping. by rewrite decide_True. }
  destruct (0 <? _)%nat; [|done].
  match goal with |- ?x = None => destruct x eqn:E; [|done] end.
  apply RegistryProps.broadcast_mapping_mono in E. congruence.
Qed.

Lemma finally_block_handle_mono lib net t u n mgr t' v h :
  member_handle t' v (finally_block lib net t u n mgr).1 = Some h →
  member_handle t' v mgr = Some h.
Proof.
  unfold finally_block.
  assert (member_handle t' v (disconnect u mgr) = Some h →
          member_handle t' v mgr = Some h) as H.
  { rewrite RegistryProps.disconnect_handle. by case_decide. }
  destruct (0 <? _)%nat; [|done].
  intros E%RegistryProps.broadcast_handle_mono. auto.
Qed.

Lemma finally_block_handle_gone lib net t u n mgr t' :
  user_trip_mapping mgr !! u = Some t' → t' ≠ "" →
  member_handle t' u (finally_block lib net t u n mgr).1 = None.
Proof.
  intros Hu Ht.
  destruct (member_handle t' u (finally_block lib net t u n mgr).1) as [h|]
    eqn:E; [|done].
  unfold finally_block in E.
  assert (member_handle t' u (disconnect u mgr) = None) as H.
  { rewrite RegistryProps.disconnect_handle. by rewrite decide_True. }
  cbn zeta in E. destruct (0 <? _)%nat; [|cbn [fst] in E; congruence].
  apply RegistryProps.broadcast_handle_mono in E. congruence.
Qed.

Lemma handler_closes e :
  (length (handler e) ≤ 1)%nat
  ∧ ∀ c, c ∈ handler e →
      code c = 4001 ∨ code c = 4003 ∨ code c = 4004 ∨ code c = 1011.
Proof.
  destruct e; cbn; (split; [lia|]); intros c Hc;
    try (apply list_elem_of_singleton in Hc as ->; cbn; tauto);
    by apply elem_of_nil in Hc.
Qed.

(** A connection whose token is missing, does not decode, has no [sub] or
    names no user is closed with code 4001 and a reason that starts with
    [Authentication failed: ]; nothing is sent, the handle is never
    registered and the registry stays as it was (the [finally] clause finds
    no [user_id] to disconnect). *)
Theorem failed_authentication_closes_4001 (b : Backend) (lib : Library)
    (net : Network) (websocket : WebSocket) (trip_id token : string)
    (inbox : list Received) (connection_manager : ConnectionManager) :
  token = "" ∨ jwt_decode b token = JWTError
  ∨ jwt_decode b token = Payload None
  ∨ (∃ sub, jwt_decode b token = Payload (Some sub)
            ∧ get_user_by_id b sub = Row None) →
  ∃ msg,
    msg ∈ ["Token is required"; "Invalid token"; "Invalid token payload";
           "User not found"]
    ∧ websocket_endpoint b lib net websocket trip_id token inbox
        connection_manager
      = mkOutcome connection_manager [] []
          [mkClose 4001 ("Authentication failed: " ++ msg)] false.
Proof.
  intros H. unfold websocket_endpoint, authenticate_websocket_token.
  destruct (truthy token) eqn:Ht; cbn [negb].
  - apply RegistryProps.truthy_spec in Ht.
    destruct H as [?|[H|[H|(sub & H & Hu)]]]; [done|..]; rewrite H.
    + exists "Invalid token". split; [in_list|done].
    + exists "Invalid token payload". split; [in_list|done].
    + rewrite Hu. exists "User not found". split; [in_list|done].
  - exists "Token is required". split; [in_list|done].
Qed.

Lemma failed_authentication_closes_4001_witness :
  ∃ msg,
    msg ∈ ["Token is required"; "Invalid token"; "Invalid token payload";
           "User not found"]
    ∧ websocket_endpoint sample_backend sample_decoder all_up 3 "A" "t-nosub"
        [Text "here"] room_A
      = mkOutcome room_A [] []
          [mkClose 4001 ("Authentication failed: " ++ msg)] false.
Proof.
  apply (failed_authentication_closes_4001 sample_backend sample_decoder
           all_up 3 "A" "t-nosub" [Text "here"] room_A).
  right. right. left. reflexivity.
Defined.



(** A connection that is rejected because the trip is not found or not
    active is never accepted or registered, gets no message and is closed
    with 4003 or 4004; but the [finally] clause still calls [disconnect] for
    the user, so a session that the same user had registered before loses
    its handle and its entry in [user_trip_mapping].  The registry only
    shrinks. *)
Theorem rejected_connection_drops_live_session (b : Backend) (lib : Library)
    (net : Network) (websocket : WebSocket) (trip_id token : string)
    (inbox : list Received) (connection_manager : ConnectionManager)
    (user : User) (t : string) :
  authenticate_websocket_token b token = Ok user →
  get_trip_by_id b trip_id (id user) = Row None
  ∨ (∃ trip, get_trip_by_id b trip_id (id user) = Row (Some trip)
             ∧ is_active trip = false) →
  user_trip_mapping connection_manager !! id user = Some t →
  t ≠ "" →
  let o := websocket_endpoint b lib net websocket trip_id token inbox
             connection_manager in
  running o = false ∧ to_client o = []
  ∧ (closes o = [mkClose 4003 "Trip not found or access denied"]
     ∨ closes o = [mkClose 4004 "Trip is not active"])
  ∧ member_handle t (id user) (registry o) = None
  ∧ user_trip_mapping (registry o) !! id user = None
  ∧ ∀ t' v h, member_handle t' v (registry o) = Some h →
              member_handle t' v connection_manager = Some h.
Proof.
  intros Ha Hr Hu Ht o. subst o. unfold websocket_endpoint. rewrite Ha.
  destruct Hr as [Hr|(trip & Hr & Hi)]; rewrite Hr; [|rewrite Hi]; cbn;
    (split; [done|]); (split; [done|]); (split; [by auto|]);
    (split; [by apply finally_block_handle_gone|]);
    (split; [apply finally_block_mapping|]);
    intros t' v h; apply finally_block_handle_mono.
Qed.

Lemma rejected_connection_drops_live_session_witness :
  let o := websocket_endpoint sample_backend sample_decoder all_up 3 "Z"
             "t-una" [] room_A in
  member_handle "A" "u" room_A = Some 1
  ∧ closes o = [mkClose 4004 "Trip is not active"]
  ∧ member_handle "A" "u" (registry o) = None.
Proof.
  intros o.
  destruct (rejected_connection_drops_live_session sample_backend
              sample_decoder all_up 3 "Z" "t-una" [] room_A una "A")
    as (_ & _ & _ & Hg & _).
  - reflexivity.
  - right. exists (mkTrip "Old town" false). split; reflexivity.
  - vm_compute. reflexivity.
  - discriminate.
  - split; [vm_compute; reflexivity|]. split; [reflexivity|exact Hg].
Defined.



Lemma websocket_endpoint_among_alone b lib net ws t token inbox mgr :
  Shared.websocket_endpoint_among b lib net ws t token (Shared.Frame <$> inbox)
    mgr
  = websocket_endpoint b lib net ws t token inbox mgr.
Proof.
  unfold Shared.websocket_endpoint_among, websocket_endpoint.
  destruct (authenticate_websocket_token b token) as [user|e]; [|done].
  destruct (get_trip_by_id b t (id user)) as [[trip|]|e]; try done.
  destruct (is_active trip); [|done]. cbn [negb].
  destruct (accept b); [done|]. cbn zeta.
  by rewrite SessionProps.message_loop_among_alone.
Qed.



(** The condition above is needed: a second connection of the same user that
    is rejected runs [disconnect] for the user in its [finally] clause, and
    the session that is still waiting is no longer registered. *)
Lemma waiting_session_unregistered_by_rejected_connection :
  let turns := [Shared.Frame (Text "here");
                Shared.Other (Disconnect "v")] in
  let o := Shared.websocket_endpoint_among sample_backend sample_decoder
             all_up 3 "A" "t-vic" turns room_A in
  registry (websocket_endpoint sample_backend sample_decoder all_up 5 "Q"
              "t-vic" [] (connect 3 "A" "v" true room_A))
  = disconnect "v" (connect 3 "A" "v" true room_A)
  ∧ running o = true
  ∧ member_handle "A" "v" (registry o) = None
  ∧ user_trip_mapping (registry o) !! "v" = None.
Proof. vm_compute. done. Qed.

(** The endpoint attempts at most one close per connection, only with the
    codes 4001, 4003, 4004 and 1011, and none while the session is waiting
    for a frame; nothing is sent to anyone on a connection that fails
    authentication. *)
Theorem close_codes (b : Backend) (lib : Library) (net : Network)
    (websocket : WebSocket) (trip_id token : string) (inbox : list Received)
    (connection_manager : ConnectionManager) :
  let o := websocket_endpoint b lib net websocket trip_id token inbox
             connection_manager in
  (length (closes o) ≤ 1)%nat
  ∧ (∀ c, c ∈ closes o →
       code c = 4001 ∨ code c = 4003 ∨ code c = 4004 ∨ code c = 1011)
  ∧ (if running o then closes o = [] else True).
Proof.
  cbn zeta. unfold websocket_endpoint.
  assert (∀ c : Close, c ∈ [] →
            code c = 4001 ∨ code c = 4003 ∨ code c = 4004 ∨ code c = 1011)
    as Hnil by (by intros c ?%elem_of_nil).
  destruct (authenticate_websocket_token b token) as [user|e].
  2:{ cbn. destruct (handler_closes e). done. }
  destruct (get_trip_by_id b trip_id (id user)) as [[trip|]|e]; cbn zeta.
  - destruct (is_active trip); cbn [negb].
    + destruct (accept b) as [e|].
      { cbn. destruct (handler_closes e). done. }
      destruct (net (id user) websocket _).
      * destruct (state (message_loop _ _ _ _ _ _ _ _)); cbn.
        -- split; [lia|]. done.
        -- destruct (handler_closes (send_exception b)). done.
      * cbn. destruct (handler_closes (send_exception b)). done.
    + cbn. split; [lia|]. split; [|done].
      intros c ->%list_elem_of_singleton. cbn. tauto.
  - cbn. split; [lia|]. split; [|done].
    intros c ->%list_elem_of_singleton. cbn. tauto.
  - cbn. split; [lia|]. split; [|done].
    intros c ->%list_elem_of_singleton. cbn. tauto.
Qed.

(** The leave notice of the [finally] clause, for a user registered under
    the trip of the connection: the user is unregistered first, then every
    participant that remains in the trip, and nobody else, is sent the
    [participant_left] message with the number of participants that remain;
    when nobody remains nothing is sent. *)
Theorem leave_notice_recipients (lib : Library) (net : Network)
    (trip_id user_id full_name : string)
    (connection_manager : ConnectionManager) :
  user_trip_mapping connection_manager !! user_id = Some trip_id →
  trip_id ≠ "" →
  let r := finally_block lib net trip_id user_id full_name
             connection_manager in
  let remaining :=
    get_trip_participants trip_id (disconnect user_id connection_manager) in
  let notice :=
    json_dumps lib (leave_message user_id full_name (length remaining)) in
  user_trip_mapping r.1 !! user_id = None
  ∧ member_handle trip_id user_id r.1 = None
  ∧ (∀ x, x ∈ r.2 →
       send_user x ≠ user_id ∧ send_message x = notice
       ∧ member_handle trip_id (send_user x) connection_manager
         = Some (send_socket x))
  ∧ (∀ v ws, v ≠ user_id →
       member_handle trip_id v connection_manager = Some ws →
       mkSend v ws notice ∈ r.2)
  ∧ (remaining = [] → r.2 = []).
Proof.
  intros Hu Ht r remaining notice.
  split; [apply finally_block_mapping|].
  split; [by apply finally_block_handle_gone|].
  assert (∀ v, member_handle trip_id v (disconnect user_id connection_manager)
               = if decide (v = user_id) then None
                 else member_handle trip_id v connection_manager) as Hd.
  { intros v. rewrite RegistryProps.disconnect_handle.
    destruct (decide (v = user_id)) as [->|Hne].
    - by rewrite decide_True.
    - rewrite decide_False; [done|]. by intros [? _]. }
  subst r. unfold finally_block. fold remaining. fold notice.
  destruct remaining as [|v0 rest] eqn:Hrem.
  - cbn. split; [by intros x ?%elem_of_nil|]. split; [|done].
    intros v ws Hv Hh. exfalso.
    assert (v ∈ get_trip_participants trip_id
                  (disconnect user_id connection_manager)) as Hin.
    { apply RegistryProps.participants_spec. exists ws.
      rewrite Hd. by rewrite decide_False. }
    fold remaining in Hin. rewrite Hrem in Hin. by apply elem_of_nil in Hin.
  - cbn [length Nat.ltb Nat.leb]. split; [|split; [|done]].
    + intros x (Hh & Hm & _)%RegistryProps.broadcast_sent_elem.
      rewrite Hd in Hh. case_decide; [done|]. done.
    + intros v ws Hv Hh. apply broadcast_all_sent.
      rewrite Hd. by rewrite decide_False.
Qed.

Lemma leave_notice_recipients_witness :
  let r := finally_block sample_decoder all_up "A" "u" "Una" room_A in
  user_trip_mapping r.1 !! "u" = None
  ∧ mkSend "v" 2 "participant_left" ∈ r.2.
Proof.
  intros r.
  destruct (leave_notice_recipients sample_decoder all_up "A" "u" "Una"
              room_A) as (Hm & _ & _ & Hall & _).
  - vm_compute. reflexivity.
  - discriminate.
  - split; [exact Hm|].
    apply (Hall "v" 2); [discriminate|vm_compute; reflexivity].
Defined.

End EndpointProps.
